(** * ai-cv-evaluator: deploy utilities

    A shallow embedding of the two operational scripts of the repository,

      - [deploy/scripts/inject_key.py]  (module [InjectKey], and module
        [Stored] for its effect on the files as they are stored) and
      - [deploy/exporter/exporter.py]   (module [Exporter]),

    together with the properties their specification states about them.

    Python text is modelled as a list of Unicode code points, the builtin
    string methods the scripts call are modelled in [PyStr], and the
    effects (standard output, the file system, the process-wide gauge,
    exceptions and [sys.exit]) by a small state-and-exception monad. *)

From Stdlib Require Import ZArith NArith Ascii String.
From stdpp Require Import base option list countable gmap.

Local Open Scope list_scope.

(** ** Python [str] *)

Module PyStr.

(** A character is a code point; a [str] is a sequence of them. *)
Definition char : Type := N.
Definition str : Type := list char.

(** String literals of the sources (all of them are ASCII). *)
Definition lit (s : string) : str := map N_of_ascii (list_ascii_of_string s).

Definition LF : char := 10%N.
Definition SPACE : char := 32%N.
Definition SLASH : char := 47%N.

(** [' ' * n] *)
Definition str_mul (c : char) (n : nat) : str := repeat c n.

(** [s.startswith(p)] *)
Fixpoint startswith (p s : str) : bool :=
  match p, s with
  | [], _ => true
  | _ :: _, [] => false
  | a :: p', b :: s' => (a =? b)%N && startswith p' s'
  end.

(** [p in s]: [p] occurs in [s] at some offset. *)
Fixpoint str_in (p s : str) : bool :=
  startswith p s ||
  match s with
  | [] => false
  | _ :: s' => str_in p s'
  end.

(** The offsets at which [p] occurs in [s], counted from [i]
    (overlapping occurrences included). *)
Fixpoint occurrences_from (i : nat) (p s : str) : list nat :=
  (if startswith p s then [i] else []) ++
  match s with
  | [] => []
  | _ :: s' => occurrences_from (S i) p s'
  end.

Definition occurrences (p s : str) : list nat := occurrences_from 0 p s.

(** [s.replace(old, new)] for a non-empty [old]: scan from the left;
    at an occurrence of [old] emit [new] and resume after the
    occurrence, otherwise copy one character.  Every step consumes at
    least one character, so [length s] steps are enough. *)
Fixpoint replace_scan (fuel : nat) (old new s : str) : str :=
  match fuel with
  | O => s
  | S fuel' =>
      match s with
      | [] => []
      | c :: s' =>
          if startswith old s
          then new ++ replace_scan fuel' old new (drop (length old) s)
          else c :: replace_scan fuel' old new s'
      end
  end.

(** [s.replace(old, new)]; with an empty [old], [new] is inserted
    before every character and at the end. *)
Definition str_replace (old new s : str) : str :=
  match old with
  | [] => new ++ concat (map (fun c => c :: new) s)
  | _ :: _ => replace_scan (length s) old new s
  end.

(** The text [a] is what precedes the first occurrence of [p] in [s]. *)
Definition first_at (p s a : str) : Prop :=
  (exists b, s = a ++ p ++ b) /\
  forall a' b', s = a' ++ p ++ b' -> length a <= length a'.

(** No proper suffix of [p] is also a prefix of it: two occurrences of
    such a [p] never overlap. *)
Definition border_free (p : str) : bool :=
  forallb (fun k => negb (startswith (drop k p) p)) (seq 1 (length p - 1)).

(** [Py_UNICODE_ISSPACE]: the code points [str.strip] removes. *)
Definition isspace (c : char) : bool :=
  ((9 <=? c) && (c <=? 13) || (28 <=? c) && (c <=? 32) ||
   (c =? 133) || (c =? 160) || (c =? 5760) ||
   (8192 <=? c) && (c <=? 8202) || (c =? 8232) || (c =? 8233) ||
   (c =? 8239) || (c =? 8287) || (c =? 12288))%N.

(** [s.rstrip()] *)
Fixpoint str_rstrip (s : str) : str :=
  match s with
  | [] => []
  | c :: s' =>
      match str_rstrip s' with
      | [] => if isspace c then [] else [c]
      | t => c :: t
      end
  end.

(** [s.lstrip(chars)] for a one-character [chars]. *)
Fixpoint str_lstrip (c : char) (s : str) : str :=
  match s with
  | [] => []
  | a :: s' => if (a =? c)%N then str_lstrip c s' else s
  end.

(** [s[:n]] *)
Definition slice_to (n : nat) (s : str) : str := take n s.

(** The lines of a text, each with its terminating newline (the last
    one may lack it): what [readlines()] returns for a text-mode file
    whose decoded content is [s]. *)
Fixpoint splitlines_keepends (s : str) : list str :=
  match s with
  | [] => []
  | c :: s' =>
      if (c =? LF)%N then [c] :: splitlines_keepends s'
      else match splitlines_keepends s' with
           | [] => [[c]]
           | l :: ls => (c :: l) :: ls
           end
  end.

(** [sep.join(parts)] *)
Fixpoint str_join (sep : str) (parts : list str) : str :=
  match parts with
  | [] => []
  | [p] => p
  | p :: ps => p ++ sep ++ str_join sep ps
  end.

End PyStr.

Import PyStr.

(** ** Effects: standard output, exceptions and [sys.exit] *)

Module Py.

(** An exception instance, known by what [str(e)] prints. *)
Record exn : Type := Exception { exn_str : str }.

(** The value of an expression that may raise. *)
Inductive result (A : Type) : Type :=
| Ok (a : A)
| Error (e : exn).
Arguments Ok {A} a.
Arguments Error {A} e.

(** How a piece of code completes: it returns, it raises an
    [Exception], or it raises [SystemExit] with a status. *)
Inductive outcome (A : Type) : Type :=
| Return (a : A)
| Raise (e : exn)
| SysExit (code : Z).
Arguments Return {A} a.
Arguments Raise {A} e.
Arguments SysExit {A} code.

(** The process: what it has printed so far, and its store [S] (the
    file system for the injector, the gauge for the exporter). *)
Record proc (S : Type) : Type := Proc { stdout : list str; mem : S }.
Arguments Proc {S} stdout mem.
Arguments stdout {S} p.
Arguments mem {S} p.

Definition M (S A : Type) : Type := proc S -> outcome A * proc S.

Definition ret {S A} (a : A) : M S A := fun w => (Return a, w).

Definition bind {S A B} (m : M S A) (k : A -> M S B) : M S B :=
  fun w =>
    match m w with
    | (Return a, w') => k a w'
    | (Raise e, w') => (Raise e, w')
    | (SysExit c, w') => (SysExit c, w')
    end.

(** [raise e] and the evaluation of an expression that may raise. *)
Definition raise {S A} (e : exn) : M S A := fun w => (Raise e, w).

Definition eval {S A} (r : result A) : M S A :=
  match r with
  | Ok a => ret a
  | Error e => raise e
  end.

(** [print(line)] *)
Definition print {S} (line : str) : M S unit :=
  fun w => (Return tt, Proc (stdout w ++ [line]) (mem w)).

(** [sys.exit(code)] *)
Definition sys_exit {S A} (code : Z) : M S A := fun w => (SysExit code, w).

(** [try: body / except Exception as e: handler e].  [SystemExit] is
    not an [Exception] and passes through. *)
Definition try_except {S A} (body : M S A) (handler : exn -> M S A) : M S A :=
  fun w =>
    match body w with
    | (Raise e, w') => handler e w'
    | r => r
    end.

(** Reading and updating the store. *)
Definition get {S} : M S S := fun w => (Return (mem w), w).
Definition put {S} (s : S) : M S unit := fun w => (Return tt, Proc (stdout w) s).

(** [for x in xs: body x] *)
Fixpoint for_each {S A} (xs : list A) (body : A -> M S unit) : M S unit :=
  match xs with
  | [] => ret tt
  | x :: xs' => bind (body x) (fun _ => for_each xs' body)
  end.

(** The status a script run as [__main__] exits with: an uncaught
    exception prints a traceback and exits with 1. *)
Definition exit_status {A} (o : outcome A) : Z :=
  match o with
  | Return _ => 0
  | Raise _ => 1
  | SysExit c => c
  end.

End Py.

Import Py.

Declare Scope py_scope.
Delimit Scope py_scope with py.
Notation "x <- m ;; k" := (bind m (fun x => k))
  (at level 100, m at next level, k at level 200, right associativity) : py_scope.
Notation "m ;; k" := (bind m (fun _ => k))
  (at level 100, k at level 200, right associativity) : py_scope.

Local Open Scope py_scope.

(** ** [deploy/scripts/inject_key.py] *)

Module InjectKey.

(** A file as the script meets it: what [open(path, 'r')] followed by a
    read yields (the text, or the exception for a missing, unreadable or
    undecodable file), and the exception, if any, that [open(path, 'w')]
    raises before it touches the file.  The content of a file is the
    text that a text-mode read returns and a text-mode write takes; the
    newline translation of the I/O layer and the files that paths name
    are the matter of [Stored] below. *)
Record file : Type := File { on_read : result str; on_write : option exn }.

(** The file system: every path names a [file]. *)
Definition disk : Type := str -> file.

(** [with open(path, 'r') as f: f.read()] *)
Definition read_text (path : str) : M disk str :=
  d <- get ;; eval (on_read (d path)).

(** [with open(path, 'r') as f: f.readlines()] *)
Definition read_lines (path : str) : M disk (list str) :=
  d <- get ;; text <- eval (on_read (d path)) ;; ret (splitlines_keepends text).

(** [with open(path, 'w') as f: f.write(text)] *)
Definition write_text (path text : str) : M disk unit :=
  d <- get ;;
  match on_write (d path) with
  | Some e => raise e
  | None =>
      put (fun q => if decide (q = path)
                    then File (Ok text) (on_write (d path))
                    else d q)
  end.

Definition PLACEHOLDER : str := lit "__OIDC_KEY_PLACEHOLDER__".

(** [indent = ' ' * 16] *)
Definition indent : str := str_mul SPACE 16.

(** [target = indent + '__OIDC_KEY_PLACEHOLDER__'] *)
Definition target : str := indent ++ PLACEHOLDER.

(** [''.join([indent + line for line in lines])] *)
Definition key_content_of (lines : list str) : str :=
  str_join [] (map (fun line => indent ++ line) lines).

(** The body of the [if]/[else]: the new content and the line printed. *)
Definition substitute (key_content config_content : str) : M disk str :=
  if str_in target config_content then
    let new_content := str_replace target (str_rstrip key_content) config_content in
    print (lit "Placeholder found and replaced.") ;;
    ret new_content
  else
    print (lit "Indented placeholder not found, trying bare replacement.") ;;
    ret (str_replace PLACEHOLDER key_content config_content).

Definition inject_key (key_path config_path : str) : M disk unit :=
  print (lit "Injecting key from " ++ key_path ++ lit " into " ++ config_path) ;;
  try_except
    (lines <- read_lines key_path ;;
     let key_content := key_content_of lines in
     config_content <- read_text config_path ;;
     new_content <- substitute key_content config_content ;;
     write_text config_path new_content ;;
     print (lit "Successfully injected key."))
    (fun e =>
       print (lit "Error: " ++ exn_str e) ;;
       sys_exit 1).

(** [if __name__ == "__main__": ...] with [argv = sys.argv]. *)
Definition main (argv : list str) : M disk unit :=
  match argv with
  | [_; key_file; config_file] => inject_key key_file config_file
  | _ =>
      print (lit "Usage: inject_key.py <key_file> <config_file>") ;;
      sys_exit 1
  end.

(** What a later reader of [path] finds. *)
Definition content_of (w : proc disk) (path : str) : result str :=
  on_read (mem w path).

(** The line printed first. *)
Definition banner (key_path config_path : str) : str :=
  lit "Injecting key from " ++ key_path ++ lit " into " ++ config_path.

(** A file system holding the listed text files, all writable, and
    nothing else. *)
Fixpoint disk_of (files : list (str * str)) : disk :=
  fun q =>
    match files with
    | [] => File (Error (Exception (lit "[Errno 2] No such file or directory"))) None
    | (path, text) :: files' =>
        if decide (q = path) then File (Ok text) None else disk_of files' q
    end.

(** [s.replace(old, new, 1)]: the substitution the specification
    describes, which stops after the first occurrence. *)
Fixpoint replace_first_only (old new s : str) : str :=
  match s with
  | [] => []
  | c :: s' =>
      if startswith old s then new ++ drop (length old) s
      else c :: replace_first_only old new s'
  end.

End InjectKey.

(** ** [deploy/scripts/inject_key.py] on the files as they are stored

    [InjectKey] describes the script by the text its reads return and
    its writes take.  Here the same script runs on a machine whose files
    hold their content as stored: text mode translates the line endings
    in both directions, and two paths may name one file.  The stored
    content of a file is the sequence of characters its bytes encode,
    line endings as they are on disk; the codec is one-to-one on the
    files it accepts, so equal characters mean equal bytes. *)

Module Stored.

Import InjectKey.

Definition CR : char := 13%N.

(** What a text-mode read ([newline=None]) makes of the stored
    characters: ["\r\n"] and a lone ["\r"] become ["\n"].
    [pending_cr] tells that the character before was a ["\r"]. *)
Fixpoint universal_newlines_from (pending_cr : bool) (s : str) : str :=
  match s with
  | [] => []
  | c :: s' =>
      if (c =? CR)%N then LF :: universal_newlines_from true s'
      else if (c =? LF)%N && pending_cr then universal_newlines_from false s'
      else c :: universal_newlines_from false s'
  end.

Definition universal_newlines (s : str) : str := universal_newlines_from false s.

(** What a text-mode write ([newline=None]) stores: every ["\n"]
    becomes [os.linesep]. *)
Definition write_newlines (linesep s : str) : str :=
  concat (map (fun c => if (c =? LF)%N then linesep else [c]) s).

(** A file: the characters stored in it (or the exception that opening
    or decoding it raises), and the exception, if any, that
    [open(path, 'w')] raises before it touches the file. *)
Record stored_file : Type := StoredFile {
  stored : result str;
  write_error : option exn
}.

(** The machine: [os.linesep], the file each path names, and the files. *)
Record machine : Type := Machine {
  linesep : str;
  resolve : str -> N;
  files : N -> stored_file
}.

(** [with open(path, 'r') as f: f.read()] *)
Definition read_text (path : str) : M machine str :=
  m <- get ;;
  raw <- eval (stored (files m (resolve m path))) ;;
  ret (universal_newlines raw).

(** [with open(path, 'r') as f: f.readlines()] *)
Definition read_lines (path : str) : M machine (list str) :=
  m <- get ;;
  raw <- eval (stored (files m (resolve m path))) ;;
  ret (splitlines_keepends (universal_newlines raw)).

(** [with open(path, 'w') as f: f.write(text)] *)
Definition write_text (path text : str) : M machine unit :=
  m <- get ;;
  match write_error (files m (resolve m path)) with
  | Some e => raise e
  | None =>
      put (Machine (linesep m) (resolve m)
             (fun i => if decide (i = resolve m path)
                       then StoredFile (Ok (write_newlines (linesep m) text)) None
                       else files m i))
  end.

(** The body of the [if]/[else]. *)
Definition substitute (key_content config_content : str) : M machine str :=
  if str_in target config_content then
    let new_content := str_replace target (str_rstrip key_content) config_content in
    print (lit "Placeholder found and replaced.") ;;
    ret new_content
  else
    print (lit "Indented placeholder not found, trying bare replacement.") ;;
    ret (str_replace PLACEHOLDER key_content config_content).

Definition inject_key (key_path config_path : str) : M machine unit :=
  print (lit "Injecting key from " ++ key_path ++ lit " into " ++ config_path) ;;
  try_except
    (lines <- read_lines key_path ;;
     let key_content := key_content_of lines in
     config_content <- read_text config_path ;;
     new_content <- substitute key_content config_content ;;
     write_text config_path new_content ;;
     print (lit "Successfully injected key."))
    (fun e =>
       print (lit "Error: " ++ exn_str e) ;;
       sys_exit 1).

(** [if __name__ == "__main__": ...] with [argv = sys.argv]. *)
Definition main (argv : list str) : M machine unit :=
  match argv with
  | [_; key_file; config_file] => inject_key key_file config_file
  | _ =>
      print (lit "Usage: inject_key.py <key_file> <config_file>") ;;
      sys_exit 1
  end.

(** The characters stored in the file that [path] names. *)
Definition stored_at (w : proc machine) (path : str) : result str :=
  stored (files (mem w) (resolve (mem w) path)).

(** A machine with the given line separator holding the listed files;
    the [n]-th path of the list names file [n + 1], every other path
    names file 0, which does not exist. *)
Fixpoint resolve_in (paths : list str) (n : N) (q : str) : N :=
  match paths with
  | [] => 0%N
  | path :: paths' => if decide (q = path) then n else resolve_in paths' (N.succ n) q
  end.

Fixpoint file_in (texts : list str) (n : N) (i : N) : stored_file :=
  match texts with
  | [] => StoredFile (Error (Exception (lit "[Errno 2] No such file or directory"))) None
  | text :: texts' =>
      if decide (i = n) then StoredFile (Ok text) None else file_in texts' (N.succ n) i
  end.

Definition machine_of (linesep : str) (entries : list (str * str)) : machine :=
  Machine linesep (resolve_in (map fst entries) 1) (file_in (map snd entries) 1).

End Stored.

(** ** [deploy/exporter/exporter.py] *)

Module Exporter.

(** The objects of the container runtime's client library.  The
    attributes of a listed container are properties that may raise when
    read (the image reference cannot be resolved, a field is missing);
    its identifier is part of the listing itself. *)
Record Image : Type := { tags : list str; image_id : str }.

Record Container : Type := {
  id : str;
  name : result str;
  image : result Image;
  status : result str;
  labels : result (gmap str str)
}.

(** [container.short_id], the library's [id[:12]]; like [id] it is read
    off the listing and does not raise. *)
Definition short_id (c : Container) : str := slice_to 12 (id c).

(** [client.containers.list(all=True)] *)
Record Client : Type := { containers_list_all : result (list Container) }.

(** The label values of one observation, in the order of the gauge's
    label names:
    [id], [name], [image], [com_docker_compose_service], [state], [full_id]. *)
Definition label_values : Type := (str * str * str * str * str * str)%type.

(** [CONTAINER_META]: the children of the gauge, by label values. *)
Abbreviation gauge := (gmap label_values Z).

(** [CONTAINER_META.clear()] *)
Definition clear : M gauge unit := put ∅.

(** [CONTAINER_META.labels(...).set(v)] *)
Definition labels_set (l : label_values) (v : Z) : M gauge unit :=
  g <- get ;; put (<[l := v]> g).

(** Sequencing of attribute reads, the first failure wins. *)
Definition and_then {A B} (r : result A) (k : A -> result B) : result B :=
  match r with
  | Ok a => k a
  | Error e => Error e
  end.

(** Lines 23-31: the label values read off one container. *)
Definition extract (container : Container) : result label_values :=
  let full_id := id container in
  let short_id := slice_to 12 (id container) in
  and_then (name container) (fun n =>
  let name := str_lstrip SLASH n in
  and_then (image container) (fun img =>
  let image := match tags img with
               | t :: _ => t
               | [] => image_id img
               end in
  and_then (status container) (fun state =>
  and_then (labels container) (fun labels =>
  let service := default name (labels !! lit "com.docker.compose.service") in
  Ok (short_id, name, image, service, state, full_id))))).

(** The body of the [for] loop. *)
Definition process (container : Container) : M gauge unit :=
  try_except
    (l <- eval (extract container) ;;
     labels_set l 1)
    (fun e =>
       print (lit "Error processing container " ++ short_id container ++
              lit ": " ++ exn_str e)).

(** [collect_metrics()], given what [docker.from_env()] yields. *)
Definition collect_metrics (from_env : result Client) : M gauge unit :=
  try_except
    (client <- eval from_env ;;
     containers <- eval (containers_list_all client) ;;
     clear ;;
     for_each containers process)
    (fun e => print (lit "Error connecting to Docker: " ++ exn_str e)).

(** The line printed for a container whose attributes cannot be read. *)
Definition error_line (container : Container) (e : exn) : str :=
  lit "Error processing container " ++ short_id container ++
  lit ": " ++ exn_str e.

(** The label values of the containers of a listing that can be read,
    and the lines printed for those that cannot, in listing order. *)
Definition extracted (cs : list Container) : list label_values :=
  flat_map (fun c => match extract c with Ok l => [l] | Error _ => [] end) cs.

Definition reported (cs : list Container) : list str :=
  flat_map (fun c => match extract c with Ok _ => [] | Error e => [error_line c e] end) cs.

(** Setting the listed observations to 1, one after the other. *)
Definition set_all (ls : list label_values) (g : gauge) : gauge :=
  foldl (fun g l => <[l := 1%Z]> g) g ls.

(** A runtime that answers the listing with [cs]. *)
Definition listing (cs : list Container) : result Client :=
  Ok {| containers_list_all := Ok cs |}.

(** The gauge after a cycle. *)
Definition gauge_after (from_env : result Client) (w : proc gauge) : gauge :=
  mem (snd (collect_metrics from_env w)).

(** The exporter process as a whole: the gauge, the ports on which the
    metrics are served, and the seconds spent in [time.sleep]. *)
Record server : Type := Server {
  CONTAINER_META : gauge;
  http_ports : list Z;
  slept : Z
}.

(** A computation on the gauge, run inside the exporter process. *)
Definition on_gauge {A} (m : M gauge A) : M server A :=
  fun w =>
    let s := mem w in
    match m (Proc (stdout w) (CONTAINER_META s)) with
    | (o, w') => (o, Proc (stdout w') (Server (mem w') (http_ports s) (slept s)))
    end.

(** [start_http_server(port)]; [busy] is the exception it raises when
    the port cannot be bound. *)
Definition start_http_server (port : Z) (busy : option exn) : M server unit :=
  match busy with
  | Some e => raise e
  | None =>
      s <- get ;;
      put (Server (CONTAINER_META s) (http_ports s ++ [port]) (slept s))
  end.

(** [time.sleep(seconds)] *)
Definition time_sleep (seconds : Z) : M server unit :=
  s <- get ;;
  put (Server (CONTAINER_META s) (http_ports s) (slept s + seconds)).

(** The body of the [while True] loop. *)
Definition iteration (from_env : result Client) : M server unit :=
  on_gauge (collect_metrics from_env) ;;
  time_sleep 15.

(** [if __name__ == '__main__': ...]: the start of the server and the
    first iterations of the [while True] loop, one for each answer of
    the runtime in [answers]. *)
Definition main (busy : option exn) (answers : list (result Client)) : M server unit :=
  print (lit "Starting Docker Meta Exporter on port 8000...") ;;
  start_http_server 8000 busy ;;
  for_each answers iteration.

(** The containers of the last answer that is a listing, if any. *)
Fixpoint last_listing (answers : list (result Client)) : option (list Container) :=
  match answers with
  | [] => None
  | from_env :: rest =>
      match last_listing rest with
      | Some cs => Some cs
      | None =>
          match from_env with
          | Ok {| containers_list_all := Ok cs |} => Some cs
          | _ => None
          end
      end
  end.

End Exporter.

(** ** Sample inputs *)

Module Examples.

Import InjectKey.

Definition key_pem : str := lit "key.pem".
Definition config_yml : str := lit "config.yml".

(** ["K\n"] and ["LINE1\nLINE2\n"] *)
Definition one_line_key : str := lit "K" ++ [LF].
Definition two_line_key : str := lit "LINE1" ++ [LF] ++ lit "LINE2" ++ [LF].

(** A configuration with the indented placeholder on two lines. *)
Definition two_placeholder_parts : list str :=
  [lit "a:" ++ [LF]; [LF] ++ lit "b:" ++ [LF]; [LF]].
Definition two_placeholders : str := str_join target two_placeholder_parts.

(** A configuration with the indented placeholder on one line. *)
Definition one_placeholder : str :=
  lit "a:" ++ [LF] ++ target ++ [LF] ++ lit "b: 1" ++ [LF].

(** A configuration with the bare token only. *)
Definition bare_placeholder : str := lit "key: __OIDC_KEY_PLACEHOLDER__" ++ [LF].

(** A configuration without any placeholder. *)
Definition no_placeholder : str := lit "issuer: http://localhost" ++ [LF].

(** The process before the script runs, with the two files on disk. *)
Definition start (key config : str) : proc disk :=
  Proc [] (disk_of [(key_pem, key); (config_yml, config)]).

(** A key file holding a line break only. *)
Definition blank_key : str := [LF].

(** A configuration with a bare token on one line and the indented
    placeholder on the next. *)
Definition mixed_parts : list str :=
  [lit "key: __OIDC_KEY_PLACEHOLDER__" ++ [LF]; [LF]].

(** The two files on disk, the configuration file being read-only. *)
Definition read_only_start (key config : str) : proc disk :=
  Proc [] (fun q =>
             if decide (q = config_yml)
             then File (Ok config) (Some (Exception (lit "[Errno 13] Permission denied")))
             else disk_of [(key_pem, key)] q).

(** The configurations [no_placeholder] and [one_placeholder] stored
    with ["\r\n"] line endings. *)
Definition crlf_no_placeholder : str :=
  lit "a: 1" ++ [Stored.CR; LF] ++ lit "b: 2" ++ [Stored.CR; LF].

Definition crlf_one_placeholder : str :=
  lit "a:" ++ [Stored.CR; LF] ++ target ++ [Stored.CR; LF] ++
  lit "b: 1" ++ [Stored.CR; LF].

(** A machine whose line separator is ["\n"], with the two files. *)
Definition posix (key config : str) : proc Stored.machine :=
  Proc [] (Stored.machine_of [LF] [(key_pem, key); (config_yml, config)]).

(** The same machine on which [./config.yml] names the configuration
    file as well. *)
Definition linked (key config : str) : proc Stored.machine :=
  Proc [] (Stored.Machine [LF]
             (fun q => if decide (q = lit "./config.yml") then 2%N
                       else Stored.resolve_in [key_pem; config_yml] 1 q)
             (Stored.file_in [key; config] 1)).

Import Exporter.

(** A compose service, a plain container with an untagged image, and a
    container whose image reference cannot be resolved. *)
Definition web : Container := {|
  id := lit "0123456789abcdef0123";
  name := Ok (lit "/app-web-1");
  image := Ok {| tags := [lit "app/web:latest"]; image_id := lit "sha256:aa" |};
  status := Ok (lit "running");
  labels := Ok {[ lit "com.docker.compose.service" := lit "web" ]}
|}.

Definition job : Container := {|
  id := lit "fedcba9876543210fedc";
  name := Ok (lit "job");
  image := Ok {| tags := []; image_id := lit "sha256:bb" |};
  status := Ok (lit "exited");
  labels := Ok ∅
|}.

Definition broken : Container := {|
  id := lit "00112233445566778899";
  name := Ok (lit "broken");
  image := Error (Exception (lit "404 Client Error: No such image"));
  status := Ok (lit "created");
  labels := Ok ∅
|}.

Definition web_labels : label_values :=
  (lit "0123456789ab", lit "app-web-1", lit "app/web:latest", lit "web",
   lit "running", lit "0123456789abcdef0123").

Definition job_labels : label_values :=
  (lit "fedcba987654", lit "job", lit "sha256:bb", lit "job",
   lit "exited", lit "fedcba9876543210fedc").

(** An observation left over from an earlier cycle. *)
Definition stale_labels : label_values :=
  (lit "aaaaaaaaaaaa", lit "old", lit "old:1", lit "old",
   lit "running", lit "aaaaaaaaaaaaaaaaaaaa").

Definition daemon_down : result Client :=
  Error (Exception (lit "Error while fetching server API version")).

(** The exporter process before it starts. *)
Definition boot : proc server := Proc [] (Server ∅ [] 0).

(** The container [job] after it has been started again. *)
Definition job_running : Container := {|
  id := lit "fedcba9876543210fedc";
  name := Ok (lit "job");
  image := Ok {| tags := []; image_id := lit "sha256:bb" |};
  status := Ok (lit "running");
  labels := Ok ∅
|}.

Definition job_running_labels : label_values :=
  (lit "fedcba987654", lit "job", lit "sha256:bb", lit "job",
   lit "running", lit "fedcba9876543210fedc").

End Examples.

(** * Properties *)

(** ** Facts about the string methods *)

Section StrFacts.

Implicit Types (p s old new : str) (c : char).

Lemma startswith_spec p s : startswith p s = true <-> exists r, s = p ++ r.
Proof.
  revert s; induction p as [|a p IH]; intros s; simpl.
  - split; eauto.
  - destruct s as [|b s].
    + split; [discriminate | intros [r Hr]; discriminate].
    + rewrite andb_true_iff, N.eqb_eq, IH. split.
      * intros [-> [r ->]]. eauto.
      * intros [r Hr]. injection Hr as -> ->. eauto.
Qed.

Lemma startswith_app p r : startswith p (p ++ r) = true.
Proof. apply startswith_spec; eauto. Qed.

Lemma str_in_spec p s : str_in p s = true <-> exists a b, s = a ++ p ++ b.
Proof.
  induction s as [|c s IH]; simpl.
  - rewrite orb_false_r, startswith_spec. split.
    + intros [r Hr]. exists [], r. done.
    + intros (a & b & H). destruct a; simpl in H.
      * eauto.
      * discriminate.
  - rewrite orb_true_iff, startswith_spec, IH. split.
    + intros [[r Hr] | (a & b & ->)].
      * exists [], r. done.
      * exists (c :: a), b. done.
    + intros (a & b & H). destruct a as [|c' a]; simpl in H.
      * left; eauto.
      * right. injection H as _ ->. eauto.
Qed.

Lemma str_in_false p s :
  str_in p s = false <-> forall a b, s <> a ++ p ++ b.
Proof.
  rewrite <- not_true_iff_false, str_in_spec. split.
  - intros H a b E. apply H; eauto.
  - intros H (a & b & E). exact (H a b E).
Qed.

(** Fuel beyond the length of the text changes nothing. *)
Lemma replace_scan_fuel old new : old <> [] ->
  forall f1 f2 s, length s <= f1 -> length s <= f2 ->
    replace_scan f1 old new s = replace_scan f2 old new s.
Proof.
  intros Hold. induction f1 as [|f1 IH]; intros f2 s H1 H2.
  - destruct s; [|simpl in H1; lia]. destruct f2; reflexivity.
  - destruct f2 as [|f2].
    + destruct s; [reflexivity | simpl in H2; lia].
    + simpl. destruct s as [|c s]; [reflexivity|].
      simpl in H1, H2.
      destruct (startswith old (c :: s)).
      * f_equal. destruct old as [|o old]; [done|]. simpl.
        apply IH; rewrite length_drop; lia.
      * f_equal. apply IH; lia.
Qed.

(** The three equations of [str.replace] with a non-empty pattern. *)
Lemma str_replace_nil old new : old <> [] -> str_replace old new [] = [].
Proof. destruct old; [done | reflexivity]. Qed.

Lemma str_replace_match old new s : old <> [] ->
  str_replace old new (old ++ s) = new ++ str_replace old new s.
Proof.
  intros Hold. destruct old as [|o old]; [done|].
  unfold str_replace. cbn [app length replace_scan].
  change (o :: old ++ s) with ((o :: old) ++ s).
  rewrite startswith_app. f_equal.
  change (length (o :: old)) with (S (length old)).
  cbn [app drop]. rewrite drop_app_length.
  apply replace_scan_fuel; [done | rewrite length_app; lia | lia].
Qed.

Lemma str_replace_skip old new c s : old <> [] ->
  startswith old (c :: s) = false ->
  str_replace old new (c :: s) = c :: str_replace old new s.
Proof.
  intros Hold Hs. destruct old as [|o old]; [done|].
  unfold str_replace. cbn [length replace_scan]. rewrite Hs. reflexivity.
Qed.

Lemma first_at_cons p c s a :
  first_at p (c :: s) (c :: a) -> first_at p s a.
Proof.
  intros [[b Hb] Hmin]. split.
  - exists b. by injection Hb.
  - intros a' b' E. specialize (Hmin (c :: a') b'). simpl in Hmin.
    rewrite E in Hmin. specialize (Hmin eq_refl). lia.
Qed.

Lemma first_at_cons_nomatch p c s a :
  first_at p (c :: s) (c :: a) -> startswith p (c :: s) = false.
Proof.
  intros [_ Hmin]. apply not_true_iff_false. rewrite startswith_spec.
  intros [r Hr]. specialize (Hmin [] r Hr). simpl in Hmin. lia.
Qed.

(** A text in which the pattern occurs has a first occurrence. *)
Lemma str_in_first_at p s :
  str_in p s = true -> exists a, first_at p s a.
Proof.
  induction s as [|c s IH]; simpl.
  - rewrite orb_false_r, startswith_spec. intros [r Hr].
    exists []. split; [eauto | intros; simpl; lia].
  - destruct (startswith p (c :: s)) eqn:Hp; simpl.
    + intros _. apply startswith_spec in Hp as [r Hr].
      exists []. split; [eauto | intros; simpl; lia].
    + intros [a [[b ->] Hmin]]%IH. exists (c :: a). split; [by exists b|].
      intros [|c' a'] b' E; simpl in E.
      * rewrite E, startswith_app in Hp. discriminate.
      * injection E as _ E. simpl. specialize (Hmin _ _ E). lia.
Qed.

(** [replace] copies the text up to the first occurrence, puts [new]
    for it and goes on behind it. *)
Lemma str_replace_first old new a b : old <> [] ->
  first_at old (a ++ old ++ b) a ->
  str_replace old new (a ++ old ++ b) = a ++ new ++ str_replace old new b.
Proof.
  intros Hold. induction a as [|c a IH]; intros Hfirst.
  - simpl. by apply str_replace_match.
  - simpl. rewrite str_replace_skip; [|done|].
    + f_equal. apply IH. exact (first_at_cons _ _ _ _ Hfirst).
    + exact (first_at_cons_nomatch _ _ _ _ Hfirst).
Qed.

(** Without an occurrence, [replace] is the identity. *)
Lemma str_replace_absent old new s : old <> [] ->
  str_in old s = false -> str_replace old new s = s.
Proof.
  intros Hold. induction s as [|c s IH]; simpl.
  - intros _. by apply str_replace_nil.
  - intros [H1 H2]%orb_false_iff.
    rewrite str_replace_skip by done. f_equal. by apply IH.
Qed.

Lemma occurrences_from_spec p s i n :
  n ∈ occurrences_from i p s <->
  exists a b, s = a ++ p ++ b /\ n = i + length a.
Proof.
  revert i; induction s as [|c s IH]; intros i; simpl.
  - rewrite app_nil_r. destruct (startswith p []) eqn:Hp.
    + rewrite list_elem_of_singleton. apply startswith_spec in Hp as [r Hr].
      split.
      * intros ->. exists [], r. simpl. split; [done | lia].
      * intros (a & b & E & ->). destruct a; [simpl; lia | discriminate].
    + split; [by intros ?%elem_of_nil|].
      intros (a & b & E & _). destruct a; [|discriminate].
      simpl in E. rewrite E, startswith_app in Hp. discriminate.
  - rewrite elem_of_app, IH. split.
    + intros [Hn | (a & b & -> & ->)].
      * destruct (startswith p (c :: s)) eqn:Hp; [|by apply elem_of_nil in Hn].
        apply list_elem_of_singleton in Hn as ->.
        apply startswith_spec in Hp as [r Hr].
        exists [], r. simpl. split; [done | lia].
      * exists (c :: a), b. simpl. split; [done | lia].
    + intros (a & b & E & ->). destruct a as [|c' a]; simpl in E.
      * left. rewrite E, startswith_app. apply list_elem_of_singleton.
        simpl. lia.
      * right. injection E as _ ->. exists a, b. simpl. split; [done | lia].
Qed.

Lemma occurrences_spec p s n :
  n ∈ occurrences p s <-> exists a b, s = a ++ p ++ b /\ n = length a.
Proof. unfold occurrences. by rewrite occurrences_from_spec. Qed.

(** A pattern that occurs at exactly one offset splits the text in
    two parts, neither of which contains it. *)
Lemma occurrences_once p s n : p <> [] ->
  occurrences p s = [n] ->
  s = take n s ++ p ++ drop (n + length p) s /\
  first_at p s (take n s) /\
  str_in p (drop (n + length p) s) = false.
Proof.
  intros Hp Hocc.
  assert (Hall : forall a b, s = a ++ p ++ b -> length a = n).
  { intros a b E. apply list_elem_of_singleton. rewrite <- Hocc.
    apply occurrences_spec. eauto. }
  assert (Hn : n ∈ occurrences p s) by (rewrite Hocc; apply list_elem_of_singleton; done).
  apply occurrences_spec in Hn as (a & b & E & Hlen).
  assert (Ha : take n s = a).
  { rewrite E, Hlen. by rewrite take_app_length. }
  assert (Hb : drop (n + length p) s = b).
  { rewrite E, Hlen, <- drop_drop, drop_app_length. by rewrite drop_app_length. }
  rewrite Ha, Hb. split; [done|]. split.
  - split; [eauto|]. intros a' b' E'. rewrite (Hall _ _ E'). lia.
  - apply str_in_false. intros b1 b2 Eb.
    assert (E2 : s = (a ++ p ++ b1) ++ p ++ b2).
    { rewrite E, Eb. by rewrite <- !app_assoc. }
    apply Hall in E2. rewrite !length_app in E2.
    destruct p; [done | simpl in E2; lia].
Qed.

Lemma border_free_spec p k :
  border_free p = true -> 0 < k < length p ->
  startswith (drop k p) p = false.
Proof.
  unfold border_free. rewrite forallb_forall. intros H Hk.
  apply negb_true_iff, H, in_seq. lia.
Qed.

(** Behind a text without occurrence, the occurrence of a border-free
    pattern is the first one. *)
Lemma border_free_first p a b :
  border_free p = true -> str_in p a = false ->
  first_at p (a ++ p ++ b) a.
Proof.
  intros Hbf Ha. split; [eauto|]. intros a' b' E.
  destruct (decide (length a <= length a')) as [|Hlt]; [done|]. exfalso.
  apply app_eq_app in E as [l [[E1 E2] | [E1 E2]]].
  2:{ rewrite E1, length_app in Hlt. lia. }
  assert (Hl : 0 < length l).
  { rewrite E1, length_app in Hlt. lia. }
  apply app_eq_app in E2 as [m [[E3 E4] | [E3 E4]]].
  - assert (Hm : m = take (length m) p).
    { assert (length m <= length p) by (rewrite E3, length_app; lia).
      rewrite <- (take_app_le p b) by done.
      rewrite E4. by rewrite take_app_length. }
    assert (Hd : drop (length l) p = m).
    { rewrite E3. by rewrite drop_app_length. }
    destruct (decide (m = [])) as [->|Hne].
    + rewrite app_nil_r in E3. subst l.
      apply (proj1 (str_in_false _ _) Ha a' []).
      by rewrite app_nil_r.
    + assert (Hk : 0 < length l < length p).
      { rewrite E3, length_app. destruct m; [done | simpl; lia]. }
      pose proof (border_free_spec p _ Hbf Hk) as Hno.
      rewrite Hd in Hno. apply not_true_iff_false in Hno. apply Hno.
      apply startswith_spec. exists (drop (length m) p).
      transitivity (take (length m) p ++ drop (length m) p);
        [by rewrite take_drop | by rewrite <- Hm].
  - apply (proj1 (str_in_false _ _) Ha a' m).
    rewrite E1, E3. done.
Qed.

(** Replacing a border-free pattern between parts that do not contain
    it replaces every separator. *)
Lemma str_replace_join old new parts :
  old <> [] -> border_free old = true ->
  Forall (fun part => str_in old part = false) parts ->
  str_replace old new (str_join old parts) = str_join new parts.
Proof.
  intros Hold Hbf. induction 1 as [|part parts Hpart Hparts IH].
  - by apply str_replace_nil.
  - destruct parts as [|part' parts].
    + by apply str_replace_absent.
    + change (str_join old (part :: part' :: parts))
        with (part ++ old ++ str_join old (part' :: parts)).
      change (str_join new (part :: part' :: parts))
        with (part ++ new ++ str_join new (part' :: parts)).
      rewrite str_replace_first, IH; [done..|].
      by apply border_free_first.
Qed.

(** Every text is made of parts without the pattern, separated by it. *)
Lemma str_join_exists p s : p <> [] ->
  exists parts,
    s = str_join p parts /\
    Forall (fun part => str_in p part = false) parts /\
    1 <= length parts /\
    (str_in p s = true -> 2 <= length parts).
Proof.
  intros Hp. remember (length s) as n eqn:Hn. revert s Hn.
  induction n as [n IH] using lt_wf_ind. intros s ->.
  destruct (str_in p s) eqn:Hin.
  - destruct (str_in_first_at _ _ Hin) as [a [[b Hb] Hmin]].
    destruct (IH (length b)) with (s := b) as (parts & Ejoin & Hfree & Hlen & _);
      [|done|].
    { rewrite Hb, !length_app. destruct p; [done | simpl; lia]. }
    exists (a :: parts). split; [|split; [|split]].
    + destruct parts as [|part parts]; [simpl in Hlen; lia|].
      change (str_join p (a :: part :: parts))
        with (a ++ p ++ str_join p (part :: parts)).
      by rewrite <- Ejoin.
    + constructor; [|done]. apply str_in_false. intros a1 a2 Ea.
      specialize (Hmin a1 (a2 ++ p ++ b)).
      rewrite Hb, Ea, <- !app_assoc in Hmin. specialize (Hmin eq_refl).
      rewrite !length_app in Hmin. destruct p; [done | simpl in Hmin; lia].
    + simpl. lia.
    + intros _. simpl. lia.
  - exists [s]. split; [done|]. split; [by constructor|]. split; [simpl; lia|].
    discriminate.
Qed.

Lemma str_join_empty parts : str_join [] parts = concat parts.
Proof.
  induction parts as [|p [|q parts] IH]; [done | simpl; by rewrite app_nil_r |].
  change (str_join [] (p :: q :: parts)) with (p ++ str_join [] (q :: parts)).
  by rewrite IH.
Qed.

Lemma concat_splitlines s : concat (splitlines_keepends s) = s.
Proof.
  induction s as [|c s IH]; [done|]. simpl.
  destruct (c =? LF)%N.
  - simpl. by rewrite IH.
  - destruct (splitlines_keepends s) as [|l ls]; simpl in *; by rewrite <- IH.
Qed.

End StrFacts.

(** ** The key injector *)

Section InjectKeyFacts.

Import InjectKey.

Implicit Types (w : proc disk) (key config key_path config_path : str).

Lemma target_nonempty : target <> [].
Proof. discriminate. Qed.

Lemma placeholder_nonempty : PLACEHOLDER <> [].
Proof. discriminate. Qed.

Lemma target_border_free : border_free target = true.
Proof. vm_compute. reflexivity. Qed.

(** A run in which both files can be read and the configuration file
    can be written. *)
Lemma inject_key_success key_path config_path w key config :
  on_read (mem w key_path) = Ok key ->
  on_read (mem w config_path) = Ok config ->
  on_write (mem w config_path) = None ->
  let key_content := key_content_of (splitlines_keepends key) in
  let found := str_in target config in
  let new_content :=
    if found then str_replace target (str_rstrip key_content) config
    else str_replace PLACEHOLDER key_content config in
  let report :=
    if found then lit "Placeholder found and replaced."
    else lit "Indented placeholder not found, trying bare replacement." in
  inject_key key_path config_path w =
    (Return tt,
     Proc (stdout w ++ [banner key_path config_path; report;
                        lit "Successfully injected key."])
          (fun q => if decide (q = config_path)
                    then File (Ok new_content) None else mem w q)).
Proof.
  intros Hkey Hcfg Hwr. cbv zeta.
  unfold inject_key, try_except, read_lines, read_text, write_text, substitute,
    bind, get, put, eval, print, ret, raise. cbn [mem stdout fst snd].
  rewrite Hkey. cbn [mem stdout]. rewrite Hcfg.
  destruct (str_in target config); cbn [mem stdout]; rewrite Hwr;
    cbn [mem stdout]; rewrite <- !app_assoc; reflexivity.
Qed.

(** A run in which one of the two reads raises. *)
Lemma inject_key_read_failure key_path config_path w e :
  on_read (mem w key_path) = Error e \/
  (exists key, on_read (mem w key_path) = Ok key) /\
  on_read (mem w config_path) = Error e ->
  inject_key key_path config_path w =
    (SysExit 1,
     Proc (stdout w ++ [banner key_path config_path; lit "Error: " ++ exn_str e])
          (mem w)).
Proof.
  unfold inject_key, try_except, read_lines, read_text, bind, get, eval, print,
    ret, raise, sys_exit. cbn [mem stdout fst snd].
  intros [Hkey | [[key Hkey] Hcfg]]; rewrite Hkey; cbn [mem stdout].
  - rewrite <- !app_assoc. reflexivity.
  - rewrite Hcfg. cbn [mem stdout]. rewrite <- !app_assoc. reflexivity.
Qed.

Lemma str_join_target_in parts :
  2 <= length parts -> str_in target (str_join target parts) = true.
Proof.
  destruct parts as [|a [|b parts]]; simpl; [lia..|]. intros _.
  apply str_in_spec. by exists a, (str_join target (b :: parts)).
Qed.

Lemma inject_key_join key_path config_path w key parts :
  on_read (mem w key_path) = Ok key ->
  on_read (mem w config_path) = Ok (str_join target parts) ->
  on_write (mem w config_path) = None ->
  2 <= length parts ->
  Forall (fun part => str_in target part = false) parts ->
  content_of (snd (inject_key key_path config_path w)) config_path =
    Ok (str_join (str_rstrip (key_content_of (splitlines_keepends key))) parts).
Proof.
  intros Hkey Hcfg Hwr Hlen Hparts.
  rewrite (inject_key_success _ _ _ _ _ Hkey Hcfg Hwr).
  unfold content_of. cbn [snd mem]. rewrite decide_True by done.
  cbn [on_read]. rewrite str_join_target_in by done.
  f_equal. apply str_replace_join; [apply target_nonempty | apply target_border_free | done].
Qed.

(** C1, as amended.  When the indented placeholder occurs in the
    configuration, once or more often, [inject_key] substitutes every
    occurrence, not only the first: the configuration consists of parts
    without the placeholder separated by its occurrences, and the
    written content is the same parts separated by the indented key
    content with its trailing whitespace removed. *)
Theorem inject_key_replaces_every_occurrence key_path config_path w key config :
  on_read (mem w key_path) = Ok key ->
  on_read (mem w config_path) = Ok config ->
  on_write (mem w config_path) = None ->
  str_in target config = true ->
  exists parts,
    2 <= length parts /\
    Forall (fun part => str_in target part = false) parts /\
    config = str_join target parts /\
    content_of (snd (inject_key key_path config_path w)) config_path =
      Ok (str_join (str_rstrip (key_content_of (splitlines_keepends key))) parts).
Proof.
  intros Hkey Hcfg Hwr Hin.
  destruct (str_join_exists target config target_nonempty)
    as (parts & Ejoin & Hfree & _ & Hlen).
  exists parts. split; [by apply Hlen|]. split; [done|]. split; [done|].
  rewrite Ejoin in Hcfg, Hin. apply inject_key_join; [done..| |done].
  apply Hlen. by rewrite Ejoin.
Qed.

(** C2, as amended.  When the configuration does not contain the
    indented placeholder but contains the bare token, the text before
    the first occurrence of the token is kept, the token is replaced by
    the key content in which every line of the key file carries the
    16-space prefix (nothing trimmed), and the rest of the configuration
    is treated in the same way. *)
Theorem inject_key_bare_inserts_indented_key key_path config_path w key config :
  on_read (mem w key_path) = Ok key ->
  on_read (mem w config_path) = Ok config ->
  on_write (mem w config_path) = None ->
  str_in target config = false ->
  str_in PLACEHOLDER config = true ->
  let key_content := concat (map (fun line => str_mul SPACE 16 ++ line)
                                 (splitlines_keepends key)) in
  exists a b,
    config = a ++ PLACEHOLDER ++ b /\
    first_at PLACEHOLDER config a /\
    content_of (snd (inject_key key_path config_path w)) config_path =
      Ok (a ++ key_content ++ str_replace PLACEHOLDER key_content b).
Proof.
  intros Hkey Hcfg Hwr Hno Hbare key_content.
  destruct (str_in_first_at _ _ Hbare) as [a Ha].
  destruct Ha as [[b Hb] Hmin]. exists a, b. split; [done|]. split.
  { split; [eauto | done]. }
  rewrite (inject_key_success _ _ _ _ _ Hkey Hcfg Hwr).
  unfold content_of. cbn [snd mem]. rewrite decide_True by done.
  cbn [on_read]. rewrite Hno. f_equal.
  unfold key_content_of. rewrite str_join_empty. fold indent. fold key_content.
  rewrite Hb. apply str_replace_first; [apply placeholder_nonempty|].
  rewrite <- Hb. split; [eauto | done].
Qed.

(** On the text read and written: with the key text
    ["LINE1\nLINE2\n"] and a configuration text in which the indented
    placeholder occurs at exactly one offset [n], the written text is
    the text before the placeholder, then 16 spaces and [LINE1], a
    newline, 16 spaces and [LINE2], then the text behind the
    placeholder; the call returns.  What this makes of the stored file
    is stated in [StoredFacts]. *)
Lemma inject_key_line1_line2 key_path config_path w config n :
  on_read (mem w key_path) = Ok (lit "LINE1" ++ [LF] ++ lit "LINE2" ++ [LF]) ->
  on_read (mem w config_path) = Ok config ->
  on_write (mem w config_path) = None ->
  occurrences target config = [n] ->
  let before := take n config in
  let behind := drop (n + length target) config in
  config = before ++ (str_mul SPACE 16 ++ PLACEHOLDER) ++ behind /\
  fst (inject_key key_path config_path w) = Return tt /\
  content_of (snd (inject_key key_path config_path w)) config_path =
    Ok (before ++
        (str_mul SPACE 16 ++ lit "LINE1" ++ [LF] ++ str_mul SPACE 16 ++ lit "LINE2") ++
        behind).
Proof.
  intros Hkey Hcfg Hwr Hocc before behind.
  destruct (occurrences_once _ _ _ target_nonempty Hocc) as (Hsplit & Hfirst & Hrest).
  fold before behind in Hsplit, Hfirst, Hrest.
  split; [exact Hsplit|].
  rewrite (inject_key_success _ _ _ _ _ Hkey Hcfg Hwr).
  split; [reflexivity|].
  unfold content_of. cbn [snd mem]. rewrite decide_True by done.
  cbn [on_read].
  assert (Hin : str_in target config = true).
  { apply str_in_spec. exists before, behind. exact Hsplit. }
  rewrite Hin. f_equal.
  rewrite Hsplit at 1. rewrite Hsplit in Hfirst.
  rewrite (str_replace_first _ _ _ _ target_nonempty Hfirst).
  rewrite (str_replace_absent _ _ _ target_nonempty Hrest).
  reflexivity.
Qed.

(** On the text read and written: when the configuration text
    contains neither the indented placeholder nor the bare token, the
    script run with the two paths returns, so that the process exits
    with status 0, and every file, the configuration file included,
    reads as it did before.  What this makes of the stored file is
    stated in [StoredFacts]. *)
Lemma inject_key_without_placeholder prog key_path config_path w key config :
  on_read (mem w key_path) = Ok key ->
  on_read (mem w config_path) = Ok config ->
  on_write (mem w config_path) = None ->
  str_in target config = false ->
  str_in PLACEHOLDER config = false ->
  let run := main [prog; key_path; config_path] w in
  fst run = Return tt /\
  exit_status (fst run) = 0%Z /\
  lit "Successfully injected key." ∈ stdout (snd run) /\
  content_of (snd run) config_path = Ok config /\
  forall path, mem (snd run) path = mem w path.
Proof.
  intros Hkey Hcfg Hwr Hno Hbare. cbv zeta. cbn [main].
  rewrite (inject_key_success _ _ _ _ _ Hkey Hcfg Hwr).
  rewrite Hno, (str_replace_absent _ _ _ placeholder_nonempty Hbare).
  unfold content_of. cbn [fst snd mem stdout exit_status].
  split; [done|]. split; [done|]. split; [|split].
  - apply elem_of_app. right. right. right. by left.
  - by rewrite decide_True.
  - intros path. destruct (decide (path = config_path)) as [->|]; [|done].
    destruct (mem w config_path) as [r o]. simpl in Hcfg, Hwr. by subst.
Qed.

(** C10.  When reading the key file raises, or reading the
    configuration file raises, the script exits with status 1, having
    reported the error, and the file system is what it was: the write is
    never reached. *)
Theorem inject_key_read_error_leaves_config key_path config_path w :
  (exists e, on_read (mem w key_path) = Error e) \/
  (exists e, on_read (mem w config_path) = Error e) ->
  let run := inject_key key_path config_path w in
  fst run = SysExit 1 /\
  exit_status (fst run) <> 0%Z /\
  mem (snd run) = mem w /\
  content_of (snd run) config_path = content_of w config_path /\
  exists e, stdout (snd run) =
            stdout w ++ [banner key_path config_path; lit "Error: " ++ exn_str e].
Proof.
  intros H. cbv zeta.
  assert (exists e, on_read (mem w key_path) = Error e \/
            (exists key, on_read (mem w key_path) = Ok key) /\
            on_read (mem w config_path) = Error e) as [e He].
  { destruct (on_read (mem w key_path)) as [key|e] eqn:Hkey.
    - destruct H as [[e He] | [e He]]; [discriminate|].
      exists e. right. eauto.
    - exists e. by left. }
  rewrite (inject_key_read_failure _ _ _ _ He). cbn [fst snd mem stdout exit_status].
  repeat split; [done | eauto].
Qed.

(** The theorems above at sample inputs. *)

Lemma inject_key_replaces_every_occurrence_witness :
  exists parts,
    2 <= length parts /\
    Forall (fun part => str_in target part = false) parts /\
    Examples.two_placeholders = str_join target parts /\
    content_of (snd (inject_key Examples.key_pem Examples.config_yml
                       (Examples.start Examples.one_line_key Examples.two_placeholders)))
      Examples.config_yml =
    Ok (str_join (str_rstrip (key_content_of (splitlines_keepends Examples.one_line_key)))
          parts).
Proof.
  apply (inject_key_replaces_every_occurrence
           Examples.key_pem Examples.config_yml
           (Examples.start Examples.one_line_key Examples.two_placeholders)
           Examples.one_line_key Examples.two_placeholders);
    vm_compute; reflexivity.
Defined.

(** C1, as stated, fails: with the placeholder on two lines, the second
    occurrence does not remain; both are substituted. *)
Lemma inject_key_first_only_counterexample :
  let key := Examples.one_line_key in
  let config := Examples.two_placeholders in
  let written :=
    content_of (snd (inject_key Examples.key_pem Examples.config_yml
                       (Examples.start key config))) Examples.config_yml in
  let first_only :=
    replace_first_only target
      (str_rstrip (key_content_of (splitlines_keepends key))) config in
  occurrences target config = [3; 47] /\
  first_only = lit "a:" ++ [LF] ++ indent ++ lit "K" ++ [LF] ++
               lit "b:" ++ [LF] ++ target ++ [LF] /\
  written = Ok (lit "a:" ++ [LF] ++ indent ++ lit "K" ++ [LF] ++
                lit "b:" ++ [LF] ++ indent ++ lit "K" ++ [LF]) /\
  written <> Ok first_only.
Proof.
  cbv zeta. split; [vm_compute; reflexivity|].
  split; [vm_compute; reflexivity|].
  split; [vm_compute; reflexivity|].
  vm_compute. discriminate.
Qed.

Lemma inject_key_bare_inserts_indented_key_witness :
  exists a b,
    Examples.bare_placeholder = a ++ PLACEHOLDER ++ b /\
    first_at PLACEHOLDER Examples.bare_placeholder a /\
    content_of (snd (inject_key Examples.key_pem Examples.config_yml
                       (Examples.start Examples.one_line_key Examples.bare_placeholder)))
      Examples.config_yml =
    Ok (a ++ concat (map (fun line => str_mul SPACE 16 ++ line)
                         (splitlines_keepends Examples.one_line_key)) ++
        str_replace PLACEHOLDER
          (concat (map (fun line => str_mul SPACE 16 ++ line)
                       (splitlines_keepends Examples.one_line_key))) b).
Proof.
  exact (inject_key_bare_inserts_indented_key
           Examples.key_pem Examples.config_yml
           (Examples.start Examples.one_line_key Examples.bare_placeholder)
           Examples.one_line_key Examples.bare_placeholder
           eq_refl eq_refl eq_refl eq_refl eq_refl).
Defined.

(** C2, as stated, fails: on the bare path the key line is written with
    the 16-space prefix, not as it stands in the key file. *)
Lemma inject_key_bare_counterexample :
  let key := Examples.one_line_key in
  let config := Examples.bare_placeholder in
  let written :=
    content_of (snd (inject_key Examples.key_pem Examples.config_yml
                       (Examples.start key config))) Examples.config_yml in
  str_in target config = false /\
  str_in PLACEHOLDER config = true /\
  written = Ok (lit "key: " ++ indent ++ lit "K" ++ [LF] ++ [LF]) /\
  str_replace PLACEHOLDER key config = lit "key: K" ++ [LF] ++ [LF] /\
  written <> Ok (str_replace PLACEHOLDER key config).
Proof.
  cbv zeta. split; [vm_compute; reflexivity|].
  split; [vm_compute; reflexivity|].
  split; [vm_compute; reflexivity|].
  split; [vm_compute; reflexivity|].
  vm_compute. discriminate.
Qed.

Lemma inject_key_line1_line2_witness :
  Examples.one_placeholder =
    lit "a:" ++ [LF] ++ (str_mul SPACE 16 ++ PLACEHOLDER) ++ [LF] ++ lit "b: 1" ++ [LF] /\
  fst (inject_key Examples.key_pem Examples.config_yml
         (Examples.start Examples.two_line_key Examples.one_placeholder)) = Return tt /\
  content_of (snd (inject_key Examples.key_pem Examples.config_yml
                     (Examples.start Examples.two_line_key Examples.one_placeholder)))
    Examples.config_yml =
  Ok (lit "a:" ++ [LF] ++
      (str_mul SPACE 16 ++ lit "LINE1" ++ [LF] ++ str_mul SPACE 16 ++ lit "LINE2") ++
      [LF] ++ lit "b: 1" ++ [LF]).
Proof.
  exact (inject_key_line1_line2
           Examples.key_pem Examples.config_yml
           (Examples.start Examples.two_line_key Examples.one_placeholder)
           Examples.one_placeholder 3
           eq_refl eq_refl eq_refl eq_refl).
Defined.

Lemma inject_key_without_placeholder_witness :
  let run := main [lit "inject_key.py"; Examples.key_pem; Examples.config_yml]
                  (Examples.start Examples.one_line_key Examples.no_placeholder) in
  fst run = Return tt /\
  exit_status (fst run) = 0%Z /\
  lit "Successfully injected key." ∈ stdout (snd run) /\
  content_of (snd run) Examples.config_yml = Ok Examples.no_placeholder /\
  forall path,
    mem (snd run) path =
    mem (Examples.start Examples.one_line_key Examples.no_placeholder) path.
Proof.
  exact (inject_key_without_placeholder
           (lit "inject_key.py") Examples.key_pem Examples.config_yml
           (Examples.start Examples.one_line_key Examples.no_placeholder)
           Examples.one_line_key Examples.no_placeholder
           eq_refl eq_refl eq_refl eq_refl eq_refl).
Defined.

Lemma inject_key_read_error_leaves_config_witness :
  let w := Proc [] (disk_of [(Examples.config_yml, Examples.one_placeholder)]) in
  let run := inject_key Examples.key_pem Examples.config_yml w in
  fst run = SysExit 1 /\
  exit_status (fst run) <> 0%Z /\
  mem (snd run) = mem w /\
  content_of (snd run) Examples.config_yml = Ok Examples.one_placeholder /\
  exists e, stdout (snd run) =
            stdout w ++ [banner Examples.key_pem Examples.config_yml;
                         lit "Error: " ++ exn_str e].
Proof.
  exact (inject_key_read_error_leaves_config
           Examples.key_pem Examples.config_yml
           (Proc [] (disk_of [(Examples.config_yml, Examples.one_placeholder)]))
           (or_introl (ex_intro _ _ eq_refl))).
Defined.

End InjectKeyFacts.

(** ** The exporter *)

Section ExporterFacts.

Import Exporter.

Implicit Types (w : proc gauge) (g : gauge) (cs : list Container)
  (c : Container) (l : label_values) (ls : list label_values).

Lemma process_ok c l w :
  extract c = Ok l ->
  process c w = (Return tt, Proc (stdout w) (<[l := 1%Z]> (mem w))).
Proof.
  intros H. unfold process, try_except, bind, eval, labels_set, get, put, ret.
  rewrite H. reflexivity.
Qed.

Lemma process_error c e w :
  extract c = Error e ->
  process c w = (Return tt, Proc (stdout w ++ [error_line c e]) (mem w)).
Proof.
  intros H. unfold process, try_except, bind, eval, raise, print.
  rewrite H. reflexivity.
Qed.

(** The loop: it always runs to its end. *)
Lemma for_each_process cs w :
  for_each cs process w =
    (Return tt, Proc (stdout w ++ reported cs) (set_all (extracted cs) (mem w))).
Proof.
  revert w; induction cs as [|c cs IH]; intros [out g].
  - simpl. unfold ret. by rewrite app_nil_r.
  - cbn [for_each]. unfold bind at 1.
    unfold extracted, reported. cbn [flat_map]. fold (extracted cs) (reported cs).
    destruct (extract c) as [l|e] eqn:Hc.
    + rewrite (process_ok _ _ _ Hc), IH. reflexivity.
    + rewrite (process_error _ _ _ Hc), IH. cbn [stdout mem].
      by rewrite <- app_assoc.
Qed.

(** A cycle whose listing succeeds. *)
Lemma collect_metrics_listing cs w :
  collect_metrics (listing cs) w =
    (Return tt, Proc (stdout w ++ reported cs) (set_all (extracted cs) ∅)).
Proof.
  unfold collect_metrics, listing, try_except, clear.
  unfold bind at 1 2 3. unfold eval, ret, put. cbn [containers_list_all].
  by rewrite for_each_process.
Qed.

(** A cycle whose runtime query raises. *)
Lemma collect_metrics_query_error from_env e w :
  from_env = Error e \/
  (exists client, from_env = Ok client /\ containers_list_all client = Error e) ->
  collect_metrics from_env w =
    (Return tt,
     Proc (stdout w ++ [lit "Error connecting to Docker: " ++ exn_str e]) (mem w)).
Proof.
  unfold collect_metrics, try_except, bind, eval, raise, ret, print.
  intros [-> | (client & -> & Hl)]; [done|]. by rewrite Hl.
Qed.

Lemma lookup_set_all ls g l :
  set_all ls g !! l = if decide (l ∈ ls) then Some 1%Z else g !! l.
Proof.
  revert g; induction ls as [|l' ls IH]; intros g.
  - destruct (decide (l ∈ [])) as [Hin|]; [by apply elem_of_nil in Hin | done].
  - change (set_all (l' :: ls) g) with (set_all ls (<[l' := 1%Z]> g)).
    rewrite IH. destruct (decide (l ∈ ls)) as [Hin|Hnin].
    + destruct (decide (l ∈ l' :: ls)) as [|Hn]; [done|].
      destruct Hn. by right.
    + destruct (decide (l ∈ l' :: ls)) as [Hin|Hn].
      * apply elem_of_cons in Hin as [->|?]; [|done].
        by rewrite lookup_insert_eq.
      * rewrite lookup_insert_ne; [done|]. intros ->. apply Hn. by left.
Qed.

Lemma size_set_all ls g :
  NoDup ls -> (forall l, l ∈ ls -> g !! l = None) ->
  size (set_all ls g) = size g + length ls.
Proof.
  intros Hnd; revert g; induction Hnd as [|l ls Hl Hnd IH]; intros g Hg; simpl.
  - lia.
  - rewrite IH.
    + rewrite map_size_insert_None; [lia|]. apply Hg. by left.
    + intros l' Hl'. rewrite lookup_insert_ne.
      * apply Hg. by right.
      * intros ->. done.
Qed.

Lemma elem_of_extracted cs l :
  l ∈ extracted cs <-> exists c, c ∈ cs /\ extract c = Ok l.
Proof.
  unfold extracted. rewrite list_elem_of_In, in_flat_map. split.
  - intros (c & Hc & Hl). exists c. rewrite list_elem_of_In. split; [done|].
    destruct (extract c) as [l'|]; simpl in Hl; [|done].
    destruct Hl as [->|[]]. done.
  - intros (c & Hc & Hl). exists c. rewrite <- list_elem_of_In. split; [done|].
    rewrite Hl. by left.
Qed.

Lemma elem_of_reported cs c e :
  c ∈ cs -> extract c = Error e -> error_line c e ∈ reported cs.
Proof.
  intros Hc He. unfold reported. rewrite list_elem_of_In, in_flat_map.
  exists c. rewrite <- list_elem_of_In. split; [done|]. rewrite He. by left.
Qed.

Lemma length_extracted cs :
  Forall (fun c => exists l, extract c = Ok l) cs ->
  length (extracted cs) = length cs.
Proof.
  induction 1 as [|c cs [l Hl] _ IH]; [done|].
  unfold extracted in *. cbn [flat_map]. rewrite Hl. simpl. by rewrite IH.
Qed.

(** What a successful extraction has read. *)
Lemma extract_ok c l :
  extract c = Ok l ->
  exists n img st lb,
    name c = Ok n /\ image c = Ok img /\ status c = Ok st /\ labels c = Ok lb /\
    l = (slice_to 12 (id c), str_lstrip SLASH n,
         match tags img with t :: _ => t | [] => image_id img end,
         default (str_lstrip SLASH n) (lb !! lit "com.docker.compose.service"),
         st, id c).
Proof.
  unfold extract, and_then.
  destruct (name c) as [n|]; [|done]. destruct (image c) as [img|]; [|done].
  destruct (status c) as [st|]; [|done]. destruct (labels c) as [lb|]; [|done].
  intros [= <-]. by exists n, img, st, lb.
Qed.

Lemma extracted_cons_ok c cs l :
  extract c = Ok l -> extracted (c :: cs) = l :: extracted cs.
Proof. intros H. unfold extracted. cbn [flat_map]. by rewrite H. Qed.

Lemma extracted_full_ids cs :
  Forall (fun c => exists l, extract c = Ok l) cs ->
  snd <$> extracted cs = id <$> cs.
Proof.
  induction 1 as [|c cs [l Hl] _ IH]; [done|].
  rewrite (extracted_cons_ok _ _ _ Hl), !fmap_cons, IH. f_equal.
  apply extract_ok in Hl as (n & img & st & lb & _ & _ & _ & _ & ->).
  reflexivity.
Qed.

(** C3.  When the runtime query raises, be it the connection or the
    listing, [collect_metrics] returns, the gauge is what it was before
    the call, and one line reporting the error has been printed. *)
Theorem collect_metrics_query_failure_keeps_gauge from_env e w :
  from_env = Error e \/
  (exists client, from_env = Ok client /\ containers_list_all client = Error e) ->
  let run := collect_metrics from_env w in
  fst run = Return tt /\
  mem (snd run) = mem w /\
  stdout (snd run) = stdout w ++ [lit "Error connecting to Docker: " ++ exn_str e].
Proof.
  intros H. cbv zeta. by rewrite (collect_metrics_query_error _ _ _ H).
Qed.

(** C4, as amended.  In every cycle whose runtime query succeeds the
    gauge is cleared before it is filled: whatever it held before, it
    then holds the observations of this cycle's containers and nothing
    else. *)
Theorem collect_metrics_clears_when_listing_succeeds cs w :
  gauge_after (listing cs) w = set_all (extracted cs) ∅ /\
  forall l, l ∉ extracted cs -> gauge_after (listing cs) w !! l = None.
Proof.
  unfold gauge_after. rewrite collect_metrics_listing. cbn [snd mem].
  split; [done|]. intros l Hl. rewrite lookup_set_all.
  by rewrite decide_False.
Qed.

(** C5.  When every container of the listing can be read, distinct
    container ids give distinct label values; and when the label values
    are pairwise distinct, the gauge after the cycle has as many entries
    as there are containers: one for each container, under its short id,
    name, image, service, state and full id, and each entry is 1. *)
Theorem collect_metrics_one_entry_per_container cs w :
  Forall (fun c => exists l, extract c = Ok l) cs ->
  (NoDup (id <$> cs) -> NoDup (extracted cs)) /\
  (NoDup (extracted cs) ->
   let g := gauge_after (listing cs) w in
   size g = length cs /\
   (forall c, c ∈ cs ->
      exists n img svc st,
        extract c = Ok (slice_to 12 (id c), n, img, svc, st, id c) /\
        g !! (slice_to 12 (id c), n, img, svc, st, id c) = Some 1%Z) /\
   (forall l v, g !! l = Some v ->
      v = 1%Z /\ exists c, c ∈ cs /\ extract c = Ok l)).
Proof.
  intros Hall. split.
  { intros Hids. apply (NoDup_fmap_1 snd). by rewrite extracted_full_ids. }
  intros Hnd. cbv zeta. unfold gauge_after.
  rewrite collect_metrics_listing. cbn [snd mem]. split; [|split].
  - rewrite size_set_all; [|done|intros; apply lookup_empty].
    rewrite map_size_empty, length_extracted by done. lia.
  - intros c Hc. rewrite Forall_forall in Hall.
    destruct (Hall c Hc) as [l Hl].
    destruct (extract_ok _ _ Hl) as (n & img & st & lb & _ & _ & _ & _ & El).
    rewrite El in Hl. eexists _, _, _, _. split; [exact Hl|].
    rewrite lookup_set_all, decide_True; [done|].
    apply elem_of_extracted. eauto.
  - intros l v. rewrite lookup_set_all.
    destruct (decide (l ∈ extracted cs)) as [Hin|]; [|by rewrite lookup_empty].
    intros [= <-]. split; [done|]. by apply elem_of_extracted.
Qed.

(** C6.  With the same listing, a second cycle leaves the gauge as the
    first cycle left it. *)
Theorem collect_metrics_idempotent cs w :
  gauge_after (listing cs) (snd (collect_metrics (listing cs) w)) =
  gauge_after (listing cs) w.
Proof.
  unfold gauge_after. by rewrite !collect_metrics_listing.
Qed.

(** C7.  When the attributes of one container of the listing cannot be
    read, the cycle still returns, the error is reported for that
    container, every other container that can be read has its entry,
    and the gauge holds no entry but those. *)
Theorem collect_metrics_skips_failing_container before c after e w :
  extract c = Error e ->
  let run := collect_metrics (listing (before ++ c :: after)) w in
  fst run = Return tt /\
  error_line c e ∈ stdout (snd run) /\
  (forall c' l, c' ∈ before ++ after -> extract c' = Ok l ->
     mem (snd run) !! l = Some 1%Z) /\
  (forall l, is_Some (mem (snd run) !! l) ->
     exists c', c' ∈ before ++ after /\ extract c' = Ok l).
Proof.
  intros He. cbv zeta. rewrite collect_metrics_listing. cbn [fst snd mem stdout].
  split; [done|]. split; [|split].
  - apply elem_of_app. right. apply (elem_of_reported _ c e); [|done].
    apply elem_of_app. right. by left.
  - intros c' l Hc' Hl. rewrite lookup_set_all, decide_True; [done|].
    apply elem_of_extracted. exists c'. split; [|done].
    apply elem_of_app in Hc' as [?|?]; apply elem_of_app; [by left|].
    right. by right.
  - intros l. rewrite lookup_set_all.
    destruct (decide (l ∈ extracted (before ++ c :: after))) as [Hin|];
      [|rewrite lookup_empty; by intros [? ?]].
    intros _. apply elem_of_extracted in Hin as (c' & Hc' & Hl).
    exists c'. split; [|done].
    apply elem_of_app in Hc' as [?|[->|?]%elem_of_cons]; apply elem_of_app.
    + by left.
    + congruence.
    + by right.
Qed.

(** The theorems above at sample inputs. *)

Lemma collect_metrics_query_failure_keeps_gauge_witness :
  let w : proc gauge := Proc [] {[ Examples.stale_labels := 1%Z ]} in
  let run := collect_metrics Examples.daemon_down w in
  fst run = Return tt /\
  mem (snd run) = mem w /\
  stdout (snd run) =
    stdout w ++ [lit "Error connecting to Docker: " ++
                 lit "Error while fetching server API version"].
Proof.
  refine (collect_metrics_query_failure_keeps_gauge
            Examples.daemon_down
            (Exception (lit "Error while fetching server API version"))
            (Proc [] {[ Examples.stale_labels := 1%Z ]}) _).
  left. reflexivity.
Defined.

(** C4, as stated, fails: when the runtime cannot be reached the gauge
    is not cleared, and the entry of an earlier cycle is still there. *)
Lemma collect_metrics_clear_counterexample :
  let w : proc gauge := Proc [] {[ Examples.stale_labels := 1%Z ]} in
  mem w !! Examples.stale_labels = Some 1%Z /\
  gauge_after Examples.daemon_down w !! Examples.stale_labels = Some 1%Z /\
  gauge_after Examples.daemon_down w <> ∅.
Proof.
  cbv zeta. split; [vm_compute; reflexivity|].
  split; [vm_compute; reflexivity|].
  intros H. apply (f_equal (fun g : gauge => g !! Examples.stale_labels)) in H.
  vm_compute in H. discriminate.
Qed.

Lemma collect_metrics_clears_when_listing_succeeds_witness :
  let w : proc gauge := Proc [] {[ Examples.stale_labels := 1%Z ]} in
  gauge_after (listing [Examples.web; Examples.broken; Examples.job]) w
    !! Examples.stale_labels = None.
Proof.
  refine (proj2 (collect_metrics_clears_when_listing_succeeds
                   [Examples.web; Examples.broken; Examples.job]
                   (Proc [] {[ Examples.stale_labels := 1%Z ]}))
                Examples.stale_labels _).
  apply (bool_decide_unpack _). vm_compute. exact I.
Defined.

Lemma collect_metrics_one_entry_per_container_witness :
  let w : proc gauge := Proc [] {[ Examples.stale_labels := 1%Z ]} in
  let g := gauge_after (listing [Examples.web; Examples.job]) w in
  size g = 2 /\
  g !! Examples.web_labels = Some 1%Z /\
  g !! Examples.job_labels = Some 1%Z.
Proof.
  assert (Hall : Forall (fun c => exists l, extract c = Ok l)
                   [Examples.web; Examples.job]).
  { repeat constructor; eexists; reflexivity. }
  pose proof (collect_metrics_one_entry_per_container
                [Examples.web; Examples.job]
                (Proc [] {[ Examples.stale_labels := 1%Z ]}) Hall) as [Hids H].
  assert (Hnd : NoDup (id <$> [Examples.web; Examples.job])).
  { apply (bool_decide_unpack _). vm_compute. exact I. }
  destruct (H (Hids Hnd)) as (Hsize & _ & _).
  cbv zeta. split; [exact Hsize|]. split; vm_compute; reflexivity.
Defined.

Lemma collect_metrics_skips_failing_container_witness :
  let run := collect_metrics
               (listing [Examples.web; Examples.broken; Examples.job])
               (Proc [] ∅) in
  fst run = Return tt /\
  lit "Error processing container 001122334455: 404 Client Error: No such image"
    ∈ stdout (snd run) /\
  mem (snd run) !! Examples.web_labels = Some 1%Z /\
  mem (snd run) !! Examples.job_labels = Some 1%Z.
Proof.
  destruct (collect_metrics_skips_failing_container
              [Examples.web] Examples.broken [Examples.job]
              (Exception (lit "404 Client Error: No such image"))
              (Proc [] ∅) eq_refl) as (Hret & Hline & Hothers & _).
  split; [exact Hret|]. split; [exact Hline|]. split.
  - apply (Hothers Examples.web); [by left | reflexivity].
  - apply (Hothers Examples.job); [right; by left | reflexivity].
Defined.

End ExporterFacts.

(** * Further properties *)

(** ** More on the string methods *)

Section MoreStrFacts.

Implicit Types (p s u : str) (c : char).

Lemma splitlines_nonempty s : Forall (fun l => l <> []) (splitlines_keepends s).
Proof.
  induction s as [|c s IH]; [constructor|]. simpl.
  destruct (c =? LF)%N; [by constructor|].
  destruct (splitlines_keepends s) as [|l ls]; [by repeat constructor|].
  inversion IH; subst. by constructor.
Qed.

Lemma splitlines_nil s : splitlines_keepends s = [] -> s = [].
Proof.
  destruct s as [|c s]; [done|]. simpl.
  destruct (c =? LF)%N; [done|]. by destruct (splitlines_keepends s).
Qed.

(** A prefix without newline joins the first line. *)
Lemma splitlines_app_nolf u s :
  Forall (fun c => c <> LF) u -> s <> [] ->
  splitlines_keepends (u ++ s) =
    match splitlines_keepends s with
    | [] => []
    | l :: ls => (u ++ l) :: ls
    end.
Proof.
  intros Hu Hs. induction Hu as [|c u Hc _ IH]; simpl.
  - by destruct (splitlines_keepends s).
  - apply N.eqb_neq in Hc. rewrite Hc, IH.
    destruct (splitlines_keepends s) as [|l ls] eqn:E; [|done].
    by apply splitlines_nil in E.
Qed.

(** Prefixing every line of a text with [u] and reading the lines of
    the result gives the prefixed lines back. *)
Lemma splitlines_prefixed u s :
  Forall (fun c => c <> LF) u ->
  splitlines_keepends (concat (map (fun line => u ++ line) (splitlines_keepends s))) =
  map (fun line => u ++ line) (splitlines_keepends s).
Proof.
  intros Hu. induction s as [|c s IH]; [done|]. simpl.
  destruct (c =? LF)%N eqn:Hc.
  - simpl. rewrite <- app_assoc. rewrite splitlines_app_nolf by done.
    simpl. rewrite Hc. by rewrite IH.
  - pose proof (splitlines_nonempty s) as Hne.
    destruct (splitlines_keepends s) as [|l ls] eqn:E; simpl.
    + rewrite app_nil_r. rewrite splitlines_app_nolf by done. simpl. by rewrite Hc.
    + simpl in IH. inversion Hne as [|? ? Hl _]; subst.
      rewrite <- app_assoc in IH |- *.
      rewrite splitlines_app_nolf in IH by (by destruct l).
      rewrite splitlines_app_nolf by done.
      change ((c :: l) ++ concat (map (fun line => u ++ line) ls))
        with (c :: (l ++ concat (map (fun line => u ++ line) ls))).
      cbn [splitlines_keepends]. rewrite Hc.
      destruct (splitlines_keepends (l ++ concat (map (fun line => u ++ line) ls)))
        as [|l' ls']; [done|].
      injection IH as El Els. apply app_inv_head in El. by subst.
Qed.

(** [rstrip] removes a suffix of whitespace, and all of it. *)
Lemma str_rstrip_spec s :
  exists ws,
    s = str_rstrip s ++ ws /\
    Forall (fun c => isspace c = true) ws /\
    forall r c, str_rstrip s = r ++ [c] -> isspace c = false.
Proof.
  induction s as [|c s (ws & Es & Hws & Hlast)].
  - exists []. split; [done|]. split; [constructor|]. by intros [|??] ?.
  - simpl. destruct (str_rstrip s) as [|c' t] eqn:Et.
    + destruct (isspace c) eqn:Hc.
      * exists (c :: ws). simpl in Es. subst s. split; [done|].
        split; [by constructor|]. by intros [|??] ?.
      * exists ws. simpl in Es. subst s. split; [done|]. split; [done|].
        intros r x E. destruct r as [|y r]; [by injection E as <-|].
        injection E as _ E. by destruct r.
    + exists ws. split; [simpl in *; by rewrite <- Es|]. split; [done|].
      intros r x E. destruct r as [|y r].
      * injection E as -> E'. discriminate.
      * injection E as _ E. by apply (Hlast r).
Qed.

Lemma str_rstrip_blank s :
  Forall (fun c => isspace c = true) s -> str_rstrip s = [].
Proof.
  induction 1 as [|c s Hc _ IH]; [done|]. simpl. by rewrite IH, Hc.
Qed.

(** [lstrip] removes the leading run of the character, and all of it. *)
Lemma str_lstrip_spec c s :
  exists k, s = repeat c k ++ str_lstrip c s /\
            startswith [c] (str_lstrip c s) = false.
Proof.
  induction s as [|a s (k & Es & Hs)].
  - by exists 0.
  - simpl. destruct (a =? c)%N eqn:Ha.
    + apply N.eqb_eq in Ha as ->. exists (S k). simpl. by rewrite <- Es.
    + exists 0. split; [done|]. simpl. rewrite N.eqb_sym, Ha. done.
Qed.

Lemma str_join_part sep parts part :
  part ∈ parts -> exists a b, str_join sep parts = a ++ part ++ b.
Proof.
  induction parts as [|q parts IH]; [by intros ?%elem_of_nil|].
  intros [->|Hin]%elem_of_cons.
  - destruct parts as [|q' parts].
    + exists [], []. simpl. by rewrite app_nil_r.
    + exists [], (sep ++ str_join sep (q' :: parts)). done.
  - destruct (IH Hin) as (a & b & E). destruct parts as [|q' parts].
    + by apply elem_of_nil in Hin.
    + exists (q ++ sep ++ a), b.
      change (str_join sep (q :: q' :: parts))
        with (q ++ sep ++ str_join sep (q' :: parts)).
      rewrite E. by rewrite <- !app_assoc.
Qed.

Lemma str_in_context p a s b :
  str_in p s = true -> str_in p (a ++ s ++ b) = true.
Proof.
  rewrite !str_in_spec. intros (x & y & ->).
  exists (a ++ x), (y ++ b). by rewrite <- !app_assoc.
Qed.

End MoreStrFacts.

(** ** More on the key injector *)

Section MoreInjectKeyFacts.

Import InjectKey.

Implicit Types (w : proc disk) (key config key_path config_path : str).

(** A run in which both files are read and the write raises. *)
Lemma inject_key_write_failure key_path config_path w key config e :
  on_read (mem w key_path) = Ok key ->
  on_read (mem w config_path) = Ok config ->
  on_write (mem w config_path) = Some e ->
  inject_key key_path config_path w =
    (SysExit 1,
     Proc (stdout w ++
           [banner key_path config_path;
            if str_in target config
            then lit "Placeholder found and replaced."
            else lit "Indented placeholder not found, trying bare replacement.";
            lit "Error: " ++ exn_str e])
          (mem w)).
Proof.
  intros Hkey Hcfg Hwr.
  unfold inject_key, try_except, read_lines, read_text, write_text, substitute,
    bind, get, put, eval, print, ret, raise, sys_exit. cbn [mem stdout fst snd].
  rewrite Hkey. cbn [mem stdout]. rewrite Hcfg.
  destruct (str_in target config); cbn [mem stdout]; rewrite Hwr;
    cbn [mem stdout]; rewrite <- !app_assoc; reflexivity.
Qed.


(** X1.  With any number of arguments other than two, the script prints its
    usage and exits with status 1 without touching a file. *)
Theorem main_wrong_argument_count argv w :
  length argv <> 3 ->
  main argv w =
    (SysExit 1,
     Proc (stdout w ++ [lit "Usage: inject_key.py <key_file> <config_file>"])
          (mem w)).
Proof.
  intros Hlen. destruct argv as [|a0 [|a1 [|a2 [|a3 argv]]]]; try reflexivity.
  by destruct Hlen.
Qed.

(** X2.  When both files are read but the configuration file cannot be
    opened for writing, the script has already printed which
    placeholder path it took; it then reports the error instead of
    success and exits with status 1, and no file has changed. *)
Theorem inject_key_write_error key_path config_path w key config e :
  on_read (mem w key_path) = Ok key ->
  on_read (mem w config_path) = Ok config ->
  on_write (mem w config_path) = Some e ->
  let run := inject_key key_path config_path w in
  fst run = SysExit 1 /\
  mem (snd run) = mem w /\
  stdout (snd run) =
    stdout w ++
    [lit "Injecting key from " ++ key_path ++ lit " into " ++ config_path;
     if str_in (str_mul SPACE 16 ++ lit "__OIDC_KEY_PLACEHOLDER__") config
     then lit "Placeholder found and replaced."
     else lit "Indented placeholder not found, trying bare replacement.";
     lit "Error: " ++ exn_str e].
Proof.
  intros Hkey Hcfg Hwr. cbv zeta.
  by rewrite (inject_key_write_failure _ _ _ _ _ _ Hkey Hcfg Hwr).
Qed.


(** X5.  The indented key has the lines of the key file, each behind 16
    spaces, and nothing else: it is 16 characters per line longer than
    the key. *)
Theorem key_content_lines key :
  let key_content := key_content_of (splitlines_keepends key) in
  splitlines_keepends key_content =
    map (fun line => str_mul SPACE 16 ++ line) (splitlines_keepends key) /\
  length key_content = length key + 16 * length (splitlines_keepends key).
Proof.
  cbv zeta. unfold key_content_of. rewrite str_join_empty. split.
  - apply splitlines_prefixed. unfold indent, str_mul. simpl.
    repeat constructor; discriminate.
  - rewrite <- (concat_splitlines key) at 2.
    induction (splitlines_keepends key) as [|l ls IH]; [done|].
    cbn [map concat]. rewrite !length_app, IH. cbn [length indent str_mul repeat]. lia.
Qed.

(** X6.  With a key file that is empty or holds only whitespace, every
    occurrence of the indented placeholder is removed together with its
    indentation, and nothing is put in its place. *)
Theorem inject_key_blank_key_deletes_placeholder key_path config_path w key config :
  on_read (mem w key_path) = Ok key ->
  on_read (mem w config_path) = Ok config ->
  on_write (mem w config_path) = None ->
  Forall (fun c => isspace c = true) key ->
  str_in target config = true ->
  exists parts,
    config = str_join target parts /\
    Forall (fun part => str_in target part = false) parts /\
    content_of (snd (inject_key key_path config_path w)) config_path =
      Ok (concat parts).
Proof.
  intros Hkey Hcfg Hwr Hblank Hin.
  destruct (str_join_exists target config target_nonempty)
    as (parts & Ejoin & Hfree & _ & Hlen).
  exists parts. split; [done|]. split; [done|].
  rewrite Ejoin in Hcfg. rewrite (inject_key_join _ _ _ _ _ Hkey Hcfg Hwr); [|by apply Hlen|done].
  f_equal. rewrite str_rstrip_blank; [apply str_join_empty|].
  unfold key_content_of. rewrite str_join_empty.
  rewrite <- (concat_splitlines key) in Hblank.
  induction (splitlines_keepends key) as [|l ls IH]; [constructor|].
  cbn [map concat] in *. apply Forall_app in Hblank as [Hl Hls].
  rewrite !Forall_app. split; [split; [|done]|by apply IH].
  unfold indent, str_mul. simpl. repeat constructor.
Qed.

(** X7.  For any key, when the indented placeholder occurs at exactly one
    offset, the written configuration is the text before it, the
    indented key without its trailing whitespace, and the text behind
    it; what was trimmed is whitespace only, and the inserted text does
    not end in whitespace. *)
Theorem inject_key_single_placeholder key_path config_path w key config n :
  on_read (mem w key_path) = Ok key ->
  on_read (mem w config_path) = Ok config ->
  on_write (mem w config_path) = None ->
  occurrences target config = [n] ->
  exists text ws,
    key_content_of (splitlines_keepends key) = text ++ ws /\
    Forall (fun c => isspace c = true) ws /\
    (forall r c, text = r ++ [c] -> isspace c = false) /\
    content_of (snd (inject_key key_path config_path w)) config_path =
      Ok (take n config ++ text ++ drop (n + length target) config).
Proof.
  intros Hkey Hcfg Hwr Hocc.
  destruct (str_rstrip_spec (key_content_of (splitlines_keepends key)))
    as (ws & Ews & Hws & Hlast).
  exists (str_rstrip (key_content_of (splitlines_keepends key))), ws.
  split; [done|]. split; [done|]. split; [done|].
  destruct (occurrences_once _ _ _ target_nonempty Hocc) as (Hsplit & Hfirst & Hrest).
  set (before := take n config) in *.
  set (behind := drop (n + length target) config) in *.
  rewrite (inject_key_success _ _ _ _ _ Hkey Hcfg Hwr).
  unfold content_of. cbn [snd mem]. rewrite decide_True by done. cbn [on_read].
  assert (Hin : str_in target config = true).
  { apply str_in_spec. eauto. }
  rewrite Hin. f_equal.
  rewrite Hsplit at 1. rewrite Hsplit in Hfirst.
  rewrite (str_replace_first _ _ _ _ target_nonempty Hfirst).
  by rewrite (str_replace_absent _ _ _ target_nonempty Hrest).
Qed.

(** X8.  When the indented placeholder occurs, only it is substituted: every
    part of the configuration between its occurrences is written back
    as it was, so a bare token elsewhere in the file stays in place. *)
Theorem inject_key_leaves_bare_tokens key_path config_path w key parts part :
  on_read (mem w key_path) = Ok key ->
  on_read (mem w config_path) = Ok (str_join target parts) ->
  on_write (mem w config_path) = None ->
  2 <= length parts ->
  Forall (fun part => str_in target part = false) parts ->
  part ∈ parts ->
  exists a b,
    content_of (snd (inject_key key_path config_path w)) config_path =
      Ok (a ++ part ++ b) /\
    (str_in PLACEHOLDER part = true -> str_in PLACEHOLDER (a ++ part ++ b) = true).
Proof.
  intros Hkey Hcfg Hwr Hlen Hfree Hpart.
  rewrite (inject_key_join _ _ _ _ _ Hkey Hcfg Hwr Hlen Hfree).
  destruct (str_join_part (str_rstrip (key_content_of (splitlines_keepends key)))
              parts part Hpart) as (a & b & E).
  exists a, b. split; [by rewrite E|]. apply str_in_context.
Qed.

End MoreInjectKeyFacts.

(** ** More on the exporter *)

Section MoreExporterFacts.

Import Exporter.

Implicit Types (w : proc gauge) (g : gauge) (cs : list Container)
  (c : Container) (l : label_values) (ls : list label_values).

Lemma size_set_all_le ls g : size (set_all ls g) <= size g + length ls.
Proof.
  revert g; induction ls as [|l ls IH]; intros g.
  - unfold set_all. simpl. lia.
  - change (set_all (l :: ls) g) with (set_all ls (<[l := 1%Z]> g)).
    etrans; [apply IH|]. rewrite map_size_insert.
    destruct (g !! l); simpl; lia.
Qed.

Lemma length_extracted_reported cs :
  length (extracted cs) + length (reported cs) = length cs.
Proof.
  induction cs as [|c cs IH]; [done|].
  unfold extracted, reported in *. cbn [flat_map].
  destruct (extract c); rewrite !length_app; simpl; lia.
Qed.

Lemma extract_ok_fields c sid nm img svc st fid :
  extract c = Ok (sid, nm, img, svc, st, fid) ->
  exists n i lb,
    name c = Ok n /\ image c = Ok i /\ status c = Ok st /\ labels c = Ok lb /\
    sid = slice_to 12 (id c) /\
    nm = str_lstrip SLASH n /\
    img = match tags i with t :: _ => t | [] => image_id i end /\
    svc = default nm (lb !! lit "com.docker.compose.service") /\
    fid = id c.
Proof.
  intros Hl.
  apply extract_ok in Hl as (n & i & st' & lb & Hn & Hi & Hst & Hlb & El).
  exists n, i, lb.
  remember (slice_to 12 (id c)) as x1. remember (str_lstrip SLASH n) as x2.
  remember (match tags i with t :: _ => t | [] => image_id i end) as x3.
  remember (default x2 (lb !! lit "com.docker.compose.service")) as x4.
  remember (id c) as x5.
  assert (sid = x1 /\ nm = x2 /\ img = x3 /\ svc = x4 /\ st = st' /\ fid = x5)
    as (-> & -> & -> & -> & -> & ->) by (by inversion El).
  rewrite <- Heqx4. done.
Qed.

(** X9.  The short id is the first 12 characters of the full id, which is the
    container's id; the name carries no leading slash, and differs from
    the name the runtime gives only by the slashes stripped. *)
Theorem extract_ids_and_name c n sid nm img svc st fid :
  name c = Ok n ->
  extract c = Ok (sid, nm, img, svc, st, fid) ->
  fid = id c /\
  fid = sid ++ drop 12 fid /\
  length sid = min 12 (length fid) /\
  startswith [SLASH] nm = false /\
  exists k, n = repeat SLASH k ++ nm.
Proof.
  intros Hn Hl.
  apply extract_ok_fields in Hl
    as (n' & i & lb & Hn' & _ & _ & _ & -> & -> & _ & _ & ->).
  rewrite Hn in Hn'. injection Hn' as <-. unfold slice_to.
  split; [done|]. split; [by rewrite take_drop|]. split; [by rewrite length_take|].
  destruct (str_lstrip_spec SLASH n) as (k & E & Hs). split; [done | eauto].
Qed.

(** X10.  The image label is the first tag of the image, or the id of the
    image when it has no tag. *)
Theorem extract_image c i sid nm img svc st fid :
  image c = Ok i ->
  extract c = Ok (sid, nm, img, svc, st, fid) ->
  (tags i = [] -> img = image_id i) /\
  (forall t ts, tags i = t :: ts -> img = t).
Proof.
  intros Hi Hl.
  apply extract_ok_fields in Hl
    as (n & i' & lb & _ & Hi' & _ & _ & _ & _ & -> & _ & _).
  rewrite Hi in Hi'. injection Hi' as <-.
  split; [by intros -> | by intros t ts ->].
Qed.

(** X11.  The service label is the value of the compose-service label of the
    container, or its (stripped) name when it has no such label. *)
Theorem extract_service c lb sid nm img svc st fid :
  labels c = Ok lb ->
  extract c = Ok (sid, nm, img, svc, st, fid) ->
  (lb !! lit "com.docker.compose.service" = None -> svc = nm) /\
  (forall v, lb !! lit "com.docker.compose.service" = Some v -> svc = v).
Proof.
  intros Hlb Hl.
  apply extract_ok_fields in Hl
    as (n & i & lb' & _ & _ & _ & Hlb' & _ & _ & _ & -> & _).
  rewrite Hlb in Hlb'. injection Hlb' as <-.
  split; [by intros -> | by intros v ->].
Qed.

(** X12.  The attributes are read in the order name, image, status, labels:
    the extraction succeeds when all four reads do, and otherwise fails
    with the exception of the first read that raises. *)
Theorem extract_error_is_first_failure c e :
  extract c = Error e <->
  name c = Error e \/
  (exists n, name c = Ok n) /\
  (image c = Error e \/
   (exists i, image c = Ok i) /\
   (status c = Error e \/
    (exists s, status c = Ok s) /\ labels c = Error e)).
Proof.
  unfold extract, and_then.
  destruct (name c) as [n|e1]; cbn beta iota zeta.
  2:{ split; [intros [= ->]; by left|].
      intros [H | [[n H] _]]; first [discriminate | by injection H as ->]. }
  destruct (image c) as [i|e2]; cbn beta iota zeta.
  2:{ split; [intros [= ->]; right; split; [eauto | by left]|].
      intros [H | [_ [H | [[i H] _]]]]; first [discriminate | by injection H as ->]. }
  destruct (status c) as [s|e3]; cbn beta iota zeta.
  2:{ split; [intros [= ->]; right; split; [eauto|]; right; split; [eauto | by left]|].
      intros [H | [_ [H | [_ [H | [[s H] _]]]]]]; first [discriminate | by injection H as ->]. }
  destruct (labels c) as [lb|e4]; cbn beta iota zeta.
  - split; [discriminate|].
    intros [H | [_ [H | [_ [H | [_ H]]]]]]; discriminate.
  - split.
    + intros [= ->]. right. split; [eauto|]. right. split; [eauto|].
      right. split; [eauto | done].
    + intros [H | [_ [H | [_ [H | [_ H]]]]]]; first [discriminate | by injection H as ->].
Qed.

(** X13.  Whatever the runtime answers, [collect_metrics] returns: no
    exception escapes a cycle and the process is never made to exit;
    what was printed before stays, lines are only added. *)
Theorem collect_metrics_always_returns from_env w :
  fst (collect_metrics from_env w) = Return tt /\
  exists lines, stdout (snd (collect_metrics from_env w)) = stdout w ++ lines.
Proof.
  destruct from_env as [[[cs|e]]|e].
  - change (Ok {| containers_list_all := Ok cs |}) with (listing cs).
    rewrite collect_metrics_listing. split; [done | by eexists].
  - rewrite (collect_metrics_query_error _ e); [split; [done | by eexists]|].
    right. by eexists.
  - rewrite (collect_metrics_query_error _ e); [split; [done | by eexists]|].
    by left.
Qed.

(** X14.  In a cycle whose listing succeeds every container is accounted for
    once: it has its observation set or an error line printed.  So the
    entries of the gauge and the lines printed are together at most as
    many as the containers, and every entry is 1. *)
Theorem collect_metrics_accounts_for_every_container cs w :
  let run := collect_metrics (listing cs) w in
  (forall c, c ∈ cs ->
     (exists l, extract c = Ok l /\ mem (snd run) !! l = Some 1%Z) \/
     (exists e, extract c = Error e /\ error_line c e ∈ stdout (snd run))) /\
  (exists lines, stdout (snd run) = stdout w ++ lines /\
                 size (mem (snd run)) + length lines <= length cs) /\
  (forall l v, mem (snd run) !! l = Some v -> v = 1%Z).
Proof.
  cbv zeta. rewrite collect_metrics_listing. cbn [snd mem stdout].
  split; [|split].
  - intros c Hc. destruct (extract c) as [l|e] eqn:Hl.
    + left. exists l. split; [done|]. rewrite lookup_set_all, decide_True; [done|].
      apply elem_of_extracted. eauto.
    + right. exists e. split; [done|]. apply elem_of_app. right.
      by apply elem_of_reported.
  - exists (reported cs). split; [done|].
    pose proof (size_set_all_le (extracted cs) ∅) as Hsize.
    rewrite map_size_empty in Hsize.
    pose proof (length_extracted_reported cs). lia.
  - intros l v. rewrite lookup_set_all.
    destruct (decide (l ∈ extracted cs)); [by intros [= <-]|].
    by rewrite lookup_empty.
Qed.

(** X15.  The gauge after a cycle does not depend on the order in which the
    runtime lists the containers, nor on what the gauge held before. *)
Theorem collect_metrics_order_independent cs cs' w w' :
  cs ≡ₚ cs' ->
  gauge_after (listing cs) w = gauge_after (listing cs') w'.
Proof.
  intros Hperm. unfold gauge_after. rewrite !collect_metrics_listing. cbn [snd mem].
  apply map_eq. intros l. rewrite !lookup_set_all.
  destruct (decide (l ∈ extracted cs)) as [Hin|Hnin];
    destruct (decide (l ∈ extracted cs')) as [Hin'|Hnin']; try done.
  - destruct Hnin'. apply elem_of_extracted in Hin as (c & Hc & Hl).
    apply elem_of_extracted. exists c. by rewrite <- Hperm.
  - destruct Hnin. apply elem_of_extracted in Hin' as (c & Hc & Hl).
    apply elem_of_extracted. exists c. by rewrite Hperm.
Qed.

(** X16.  An outage after a good cycle keeps the observations of that cycle:
    they stay published, stale, until the runtime answers again. *)
Theorem collect_metrics_outage_keeps_last_listing cs from_env e w :
  from_env = Error e \/
  (exists client, from_env = Ok client /\ containers_list_all client = Error e) ->
  gauge_after from_env (snd (collect_metrics (listing cs) w)) =
  gauge_after (listing cs) w.
Proof.
  intros Hfail. unfold gauge_after.
  by rewrite (collect_metrics_query_error _ _ _ Hfail).
Qed.

(** X17.  When an attribute of a container changes between two cycles, so that
    its old label values are those of no listed container any more, the
    old observation is gone after the second cycle and the new one is
    there. *)
Theorem collect_metrics_replaces_changed_container cs1 cs2 c1 c2 l1 l2 w :
  c1 ∈ cs1 -> extract c1 = Ok l1 ->
  c2 ∈ cs2 -> extract c2 = Ok l2 ->
  l1 ∉ extracted cs2 ->
  let w1 := snd (collect_metrics (listing cs1) w) in
  let w2 := snd (collect_metrics (listing cs2) w1) in
  mem w1 !! l1 = Some 1%Z /\
  mem w2 !! l1 = None /\
  mem w2 !! l2 = Some 1%Z.
Proof.
  intros Hc1 Hl1 Hc2 Hl2 Hgone. cbv zeta.
  rewrite !collect_metrics_listing. cbn [snd mem].
  rewrite !lookup_set_all. split; [|split].
  - rewrite decide_True; [done|]. apply elem_of_extracted. eauto.
  - by rewrite decide_False.
  - rewrite decide_True; [done|]. apply elem_of_extracted. eauto.
Qed.

(** What one cycle does, whatever the runtime answers. *)
Lemma collect_metrics_result from_env w :
  exists lines,
    collect_metrics from_env w =
      (Return tt,
       Proc (stdout w ++ lines)
            match from_env with
            | Ok {| containers_list_all := Ok cs |} => set_all (extracted cs) ∅
            | _ => mem w
            end).
Proof.
  destruct from_env as [[[cs|e]]|e].
  - change (Ok {| containers_list_all := Ok cs |}) with (listing cs).
    rewrite collect_metrics_listing. by eexists.
  - rewrite (collect_metrics_query_error _ e); [by eexists|]. right. by eexists.
  - rewrite (collect_metrics_query_error _ e); [by eexists|]. by left.
Qed.

(** One iteration of the loop. *)
Lemma iteration_result from_env (w : proc server) :
  exists lines,
    iteration from_env w =
      (Return tt,
       Proc (stdout w ++ lines)
            (Server
               match from_env with
               | Ok {| containers_list_all := Ok cs |} => set_all (extracted cs) ∅
               | _ => CONTAINER_META (mem w)
               end
               (http_ports (mem w))
               (slept (mem w) + 15))).
Proof.
  unfold iteration, bind, on_gauge.
  destruct (collect_metrics_result from_env (Proc (stdout w) (CONTAINER_META (mem w))))
    as [lines ->].
  exists lines. reflexivity.
Qed.

(** The loop, for as many iterations as there are answers. *)
Lemma main_loop answers (w : proc server) :
  exists lines,
    for_each answers iteration w =
      (Return tt,
       Proc (stdout w ++ lines)
            (Server
               match last_listing answers with
               | Some cs => set_all (extracted cs) ∅
               | None => CONTAINER_META (mem w)
               end
               (http_ports (mem w))
               (slept (mem w) + 15 * Z.of_nat (length answers)))).
Proof.
  revert w; induction answers as [|from_env answers IH]; intros w.
  - exists []. cbn. unfold ret. rewrite app_nil_r, Z.add_0_r.
    by destruct w as [out [g ports t]].
  - cbn [for_each]. unfold bind.
    destruct (iteration_result from_env w) as [lines1 ->].
    destruct (IH (Proc (stdout w ++ lines1)
                    (Server match from_env with
                            | Ok {| containers_list_all := Ok cs |} =>
                                set_all (extracted cs) ∅
                            | _ => CONTAINER_META (mem w)
                            end (http_ports (mem w)) (slept (mem w) + 15))))
      as [lines2 ->].
    exists (lines1 ++ lines2).
    cbn [mem stdout CONTAINER_META http_ports slept last_listing].
    rewrite <- app_assoc. f_equal. f_equal. f_equal; [|cbn [length]; lia].
    destruct (last_listing answers); [done|].
    by destruct from_env as [[[?|?]]|?].
Qed.

Lemma main_started answers (w : proc server) :
  exists lines,
    Exporter.main None answers w =
      (Return tt,
       Proc (stdout w ++ lit "Starting Docker Meta Exporter on port 8000..." :: lines)
            (Server
               match last_listing answers with
               | Some cs => set_all (extracted cs) ∅
               | None => CONTAINER_META (mem w)
               end
               (http_ports (mem w) ++ [8000%Z])
               (slept (mem w) + 15 * Z.of_nat (length answers)))).
Proof.
  unfold Exporter.main, start_http_server, bind, print, get, put. cbn [mem stdout].
  destruct (main_loop answers
              (Proc (stdout w ++ [lit "Starting Docker Meta Exporter on port 8000..."])
                 (Server (CONTAINER_META (mem w)) (http_ports (mem w) ++ [8000%Z])
                    (slept (mem w))))) as [lines ->].
  exists lines. cbn [mem stdout CONTAINER_META http_ports slept].
  by rewrite <- app_assoc.
Qed.

(** X18.  The exporter process never stops by itself: when the metrics server
    has started on port 8000, every iteration of the loop returns,
    whatever the runtime answers, and each one sleeps 15 seconds.  When
    the port cannot be bound the exception is not caught: the process
    ends before the first cycle, with nothing collected. *)
Theorem main_never_stops answers (w : proc server) :
  (let run := Exporter.main None answers w in
   fst run = Return tt /\
   http_ports (mem (snd run)) = http_ports (mem w) ++ [8000%Z] /\
   slept (mem (snd run)) = (slept (mem w) + 15 * Z.of_nat (length answers))%Z /\
   exists lines,
     stdout (snd run) =
       stdout w ++ lit "Starting Docker Meta Exporter on port 8000..." :: lines) /\
  (forall e,
     Exporter.main (Some e) answers w =
       (Raise e,
        Proc (stdout w ++ [lit "Starting Docker Meta Exporter on port 8000..."])
             (mem w))).
Proof.
  split.
  - cbv zeta. destruct (main_started answers w) as [lines ->].
    cbn [fst snd mem stdout http_ports slept]. repeat split. by exists lines.
  - intros e. unfold Exporter.main, start_http_server, bind, print, raise.
    by destruct w as [out [g ports t]].
Qed.

(** X19.  After any number of iterations the gauge holds the observations of
    the last listing the runtime has answered, however many failed
    queries came after it; it holds what it held at the start when no
    query has succeeded yet. *)
Theorem main_gauge_is_last_listing answers (w : proc server) :
  CONTAINER_META (mem (snd (Exporter.main None answers w))) =
    match last_listing answers with
    | Some cs => set_all (extracted cs) ∅
    | None => CONTAINER_META (mem w)
    end.
Proof.
  by destruct (main_started answers w) as [lines ->].
Qed.

End MoreExporterFacts.

(** ** The further properties at sample inputs *)

Section MoreWitnesses.

Import InjectKey Exporter.

Lemma main_wrong_argument_count_witness :
  InjectKey.main [lit "inject_key.py"; Examples.key_pem]
    (Examples.start Examples.one_line_key Examples.one_placeholder) =
  (SysExit 1,
   Proc [lit "Usage: inject_key.py <key_file> <config_file>"]
        (mem (Examples.start Examples.one_line_key Examples.one_placeholder))).
Proof.
  refine (main_wrong_argument_count [lit "inject_key.py"; Examples.key_pem]
            (Examples.start Examples.one_line_key Examples.one_placeholder) _).
  simpl. lia.
Defined.

Lemma inject_key_write_error_witness :
  let w := Examples.read_only_start Examples.one_line_key Examples.one_placeholder in
  let run := inject_key Examples.key_pem Examples.config_yml w in
  fst run = SysExit 1 /\
  mem (snd run) = mem w /\
  stdout (snd run) =
    [lit "Injecting key from key.pem into config.yml";
     lit "Placeholder found and replaced.";
     lit "Error: [Errno 13] Permission denied"].
Proof.
  exact (inject_key_write_error Examples.key_pem Examples.config_yml
           (Examples.read_only_start Examples.one_line_key Examples.one_placeholder)
           Examples.one_line_key Examples.one_placeholder
           (Exception (lit "[Errno 13] Permission denied"))
           eq_refl eq_refl eq_refl).
Defined.


Lemma inject_key_blank_key_deletes_placeholder_witness :
  exists parts,
    Examples.two_placeholders = str_join target parts /\
    Forall (fun part => str_in target part = false) parts /\
    content_of (snd (inject_key Examples.key_pem Examples.config_yml
                       (Examples.start Examples.blank_key Examples.two_placeholders)))
      Examples.config_yml =
    Ok (concat parts).
Proof.
  refine (inject_key_blank_key_deletes_placeholder Examples.key_pem Examples.config_yml
            (Examples.start Examples.blank_key Examples.two_placeholders)
            Examples.blank_key Examples.two_placeholders
            eq_refl eq_refl eq_refl _ eq_refl).
  repeat constructor.
Defined.

Lemma inject_key_single_placeholder_witness :
  exists text ws,
    key_content_of (splitlines_keepends Examples.one_line_key) = text ++ ws /\
    Forall (fun c => isspace c = true) ws /\
    (forall r c, text = r ++ [c] -> isspace c = false) /\
    content_of (snd (inject_key Examples.key_pem Examples.config_yml
                       (Examples.start Examples.one_line_key Examples.one_placeholder)))
      Examples.config_yml =
    Ok (take 3 Examples.one_placeholder ++ text ++
        drop (3 + length target) Examples.one_placeholder).
Proof.
  exact (inject_key_single_placeholder Examples.key_pem Examples.config_yml
           (Examples.start Examples.one_line_key Examples.one_placeholder)
           Examples.one_line_key Examples.one_placeholder 3
           eq_refl eq_refl eq_refl eq_refl).
Defined.

Lemma inject_key_leaves_bare_tokens_witness :
  exists a b,
    content_of (snd (inject_key Examples.key_pem Examples.config_yml
                       (Examples.start Examples.one_line_key
                          (str_join target Examples.mixed_parts))))
      Examples.config_yml =
    Ok (a ++ (lit "key: __OIDC_KEY_PLACEHOLDER__" ++ [LF]) ++ b) /\
    (str_in PLACEHOLDER (lit "key: __OIDC_KEY_PLACEHOLDER__" ++ [LF]) = true ->
     str_in PLACEHOLDER (a ++ (lit "key: __OIDC_KEY_PLACEHOLDER__" ++ [LF]) ++ b) = true).
Proof.
  refine (inject_key_leaves_bare_tokens Examples.key_pem Examples.config_yml
            (Examples.start Examples.one_line_key (str_join target Examples.mixed_parts))
            Examples.one_line_key Examples.mixed_parts
            (lit "key: __OIDC_KEY_PLACEHOLDER__" ++ [LF])
            eq_refl eq_refl eq_refl _ _ _).
  - simpl. lia.
  - repeat constructor.
  - by left.
Defined.

Lemma extract_ids_and_name_witness :
  lit "0123456789abcdef0123" = id Examples.web /\
  lit "0123456789abcdef0123" = lit "0123456789ab" ++ drop 12 (lit "0123456789abcdef0123") /\
  length (lit "0123456789ab") = min 12 (length (lit "0123456789abcdef0123")) /\
  startswith [SLASH] (lit "app-web-1") = false /\
  exists k, lit "/app-web-1" = repeat SLASH k ++ lit "app-web-1".
Proof.
  exact (extract_ids_and_name Examples.web (lit "/app-web-1")
           (lit "0123456789ab") (lit "app-web-1") (lit "app/web:latest") (lit "web")
           (lit "running") (lit "0123456789abcdef0123") eq_refl eq_refl).
Defined.

Lemma extract_image_witness :
  extract Examples.job = Ok Examples.job_labels /\
  lit "sha256:bb" = image_id {| tags := []; image_id := lit "sha256:bb" |}.
Proof.
  split; [reflexivity|].
  refine (proj1 (extract_image Examples.job
                   {| tags := []; image_id := lit "sha256:bb" |}
                   (lit "fedcba987654") (lit "job") (lit "sha256:bb") (lit "job")
                   (lit "exited") (lit "fedcba9876543210fedc") eq_refl eq_refl) eq_refl).
Defined.

Lemma extract_service_witness :
  labels Examples.job = Ok ∅ /\
  extract Examples.job =
    Ok (lit "fedcba987654", lit "job", lit "sha256:bb", lit "job",
        lit "exited", lit "fedcba9876543210fedc") /\
  lit "job" = lit "job".
Proof.
  split; [reflexivity|]. split; [reflexivity|].
  refine (proj1 (extract_service Examples.job ∅
                   (lit "fedcba987654") (lit "job") (lit "sha256:bb") (lit "job")
                   (lit "exited") (lit "fedcba9876543210fedc") eq_refl eq_refl) _).
  vm_compute. reflexivity.
Defined.

Lemma extract_error_is_first_failure_witness :
  extract Examples.broken = Error (Exception (lit "404 Client Error: No such image")).
Proof.
  apply (proj2 (extract_error_is_first_failure Examples.broken
                  (Exception (lit "404 Client Error: No such image")))).
  right. split; [eexists; reflexivity|]. left. reflexivity.
Defined.

Lemma collect_metrics_accounts_for_every_container_witness :
  (exists l, extract Examples.job = Ok l /\
     mem (snd (collect_metrics
                 (listing [Examples.web; Examples.broken; Examples.job])
                 (Proc [] ∅))) !! l = Some 1%Z) \/
  (exists e, extract Examples.job = Error e /\
     error_line Examples.job e ∈
       stdout (snd (collect_metrics
                      (listing [Examples.web; Examples.broken; Examples.job])
                      (Proc [] ∅)))).
Proof.
  refine (proj1 (collect_metrics_accounts_for_every_container
                   [Examples.web; Examples.broken; Examples.job] (Proc [] ∅))
                Examples.job _).
  right. right. by left.
Defined.

Lemma collect_metrics_order_independent_witness :
  gauge_after (listing [Examples.web; Examples.job]) (Proc [] ∅) =
  gauge_after (listing [Examples.job; Examples.web])
    (Proc [] {[ Examples.stale_labels := 1%Z ]}).
Proof.
  refine (collect_metrics_order_independent
            [Examples.web; Examples.job] [Examples.job; Examples.web]
            (Proc [] ∅) (Proc [] {[ Examples.stale_labels := 1%Z ]}) _).
  apply Permutation_swap.
Defined.

Lemma collect_metrics_outage_keeps_last_listing_witness :
  gauge_after Examples.daemon_down
    (snd (collect_metrics (listing [Examples.web; Examples.job]) (Proc [] ∅))) =
  gauge_after (listing [Examples.web; Examples.job]) (Proc [] ∅).
Proof.
  refine (collect_metrics_outage_keeps_last_listing
            [Examples.web; Examples.job] Examples.daemon_down
            (Exception (lit "Error while fetching server API version"))
            (Proc [] ∅) _).
  left. reflexivity.
Defined.

Lemma collect_metrics_replaces_changed_container_witness :
  let w1 := snd (collect_metrics (listing [Examples.web; Examples.job]) (Proc [] ∅)) in
  let w2 := snd (collect_metrics (listing [Examples.web; Examples.job_running]) w1) in
  mem w1 !! Examples.job_labels = Some 1%Z /\
  mem w2 !! Examples.job_labels = None /\
  mem w2 !! Examples.job_running_labels = Some 1%Z.
Proof.
  refine (collect_metrics_replaces_changed_container
            [Examples.web; Examples.job] [Examples.web; Examples.job_running]
            Examples.job Examples.job_running
            Examples.job_labels Examples.job_running_labels (Proc [] ∅)
            _ eq_refl _ eq_refl _).
  - right. by left.
  - right. by left.
  - apply (bool_decide_unpack _). vm_compute. exact I.
Defined.

End MoreWitnesses.

(** ** The key injector on the files as they are stored *)

Section StoredFacts.

Import InjectKey Stored.

Implicit Types (w : proc machine) (raw rawkey key_path config_path p s : str).

(** *** The translation of line endings *)

Lemma universal_newlines_from_no_cr pending s :
  Forall (fun c => c <> CR) (universal_newlines_from pending s).
Proof.
  revert pending; induction s as [|c s IH]; intros pending; simpl; [constructor|].
  destruct (c =? CR)%N eqn:Hc.
  - constructor; [discriminate | apply IH].
  - destruct ((c =? LF)%N && pending); [apply IH|].
    constructor; [by apply N.eqb_neq | apply IH].
Qed.

Lemma universal_newlines_id s :
  Forall (fun c => c <> CR) s -> universal_newlines s = s.
Proof.
  unfold universal_newlines. induction 1 as [|c s Hc _ IH]; [done|]. simpl.
  apply N.eqb_neq in Hc. rewrite Hc, andb_false_r. by rewrite IH.
Qed.

(** The text that is read equals what is stored exactly when no
    carriage return is stored. *)
Lemma universal_newlines_id_iff s :
  universal_newlines s = s <-> Forall (fun c => c <> CR) s.
Proof.
  split; [|apply universal_newlines_id].
  intros <-. apply universal_newlines_from_no_cr.
Qed.

Lemma write_newlines_lf s : write_newlines [LF] s = s.
Proof.
  unfold write_newlines. induction s as [|c s IH]; [done|]. simpl.
  destruct (c =? LF)%N eqn:Hc; [apply N.eqb_eq in Hc as ->|]; simpl; by rewrite IH.
Qed.

(** Characters other than line endings are read as they are stored. *)
Lemma universal_newlines_from_plain pending p s :
  Forall (fun c => c <> CR /\ c <> LF) p -> p <> [] ->
  universal_newlines_from pending (p ++ s) = p ++ universal_newlines_from false s.
Proof.
  intros Hp. revert pending.
  induction Hp as [|x q [Hcr Hlf] Hq IH]; intros pending Hne; [done|].
  simpl. apply N.eqb_neq in Hcr, Hlf. rewrite Hcr, Hlf. simpl. f_equal.
  destruct q as [|y q]; [done|]. by apply IH.
Qed.

Lemma universal_newlines_from_prefix p s b :
  Forall (fun c => c <> CR /\ c <> LF) p ->
  universal_newlines_from false s = p ++ b ->
  exists b', s = p ++ b'.
Proof.
  intros Hp. revert s. induction Hp as [|x q [Hcr Hlf] Hq IH]; intros s E; [by exists s|].
  destruct s as [|c s]; [discriminate|]. simpl in E.
  destruct (c =? CR)%N eqn:Hc.
  { injection E as E _. by subst x. }
  rewrite andb_false_r in E. injection E as -> E.
  destruct (IH _ E) as [b' ->]. by exists b'.
Qed.

(** A pattern without line endings occurs in the text that is read
    exactly when it occurs in what is stored. *)
Lemma str_in_universal_newlines p s :
  Forall (fun c => c <> CR /\ c <> LF) p ->
  str_in p (universal_newlines s) = str_in p s.
Proof.
  intros Hp. destruct p as [|x p].
  { assert (Hnil : forall t, str_in [] t = true) by (by intros [|??]).
    by rewrite !Hnil. }
  unfold universal_newlines. generalize false as pending.
  assert (Hx : x <> CR /\ x <> LF) by (by inversion Hp).
  intros pending. apply eq_true_iff_eq. rewrite !str_in_spec. split.
  - revert pending. induction s as [|c s IH]; intros pending (a & b & E).
    { by destruct a. }
    simpl in E. destruct (c =? CR)%N eqn:Hc.
    { destruct a as [|a0 a]; simpl in E.
      - injection E as E _. destruct Hx as [_ Hx]. by subst x.
      - injection E as _ E. destruct (IH true) as (a' & b' & ->); [eauto|].
        by exists (c :: a'), b'. }
    destruct ((c =? LF)%N && pending).
    { destruct (IH false) as (a' & b' & ->); [eauto|]. by exists (c :: a'), b'. }
    destruct a as [|a0 a]; simpl in E.
    + injection E as -> E.
      assert (Hq : Forall (fun c => c <> CR /\ c <> LF) p) by (by inversion Hp).
      destruct (universal_newlines_from_prefix _ _ _ Hq E) as [b' ->].
      by exists [], b'.
    + injection E as _ E. destruct (IH false) as (a' & b' & ->); [eauto|].
      by exists (c :: a'), b'.
  - intros (a & b & ->). revert pending. induction a as [|c a IH]; intros pending.
    + change ([] ++ (x :: p) ++ b) with ((x :: p) ++ b).
      rewrite (universal_newlines_from_plain _ _ _ Hp) by done.
      by exists [], (universal_newlines_from false b).
    + change ((c :: a) ++ (x :: p) ++ b) with (c :: (a ++ (x :: p) ++ b)).
      cbn [universal_newlines_from]. destruct (c =? CR)%N.
      * destruct (IH true) as (a' & b' & E). rewrite E. by exists (LF :: a'), b'.
      * destruct ((c =? LF)%N && pending).
        -- apply IH.
        -- destruct (IH false) as (a' & b' & E). rewrite E. by exists (c :: a'), b'.
Qed.

Lemma target_plain : Forall (fun c => c <> CR /\ c <> LF) target.
Proof. repeat constructor; discriminate. Qed.

Lemma placeholder_plain : Forall (fun c => c <> CR /\ c <> LF) PLACEHOLDER.
Proof. repeat constructor; discriminate. Qed.

(** *** The three ways a run can go *)

Lemma stored_inject_key_success key_path config_path w rawkey raw :
  stored_at w key_path = Ok rawkey ->
  stored_at w config_path = Ok raw ->
  write_error (files (mem w) (resolve (mem w) config_path)) = None ->
  let key_content := key_content_of (splitlines_keepends (universal_newlines rawkey)) in
  let config := universal_newlines raw in
  let found := str_in target config in
  let new_content :=
    if found then str_replace target (str_rstrip key_content) config
    else str_replace PLACEHOLDER key_content config in
  let report :=
    if found then lit "Placeholder found and replaced."
    else lit "Indented placeholder not found, trying bare replacement." in
  Stored.inject_key key_path config_path w =
    (Return tt,
     Proc (stdout w ++ [banner key_path config_path; report;
                        lit "Successfully injected key."])
          (Machine (linesep (mem w)) (resolve (mem w))
             (fun i => if decide (i = resolve (mem w) config_path)
                       then StoredFile (Ok (write_newlines (linesep (mem w)) new_content)) None
                       else files (mem w) i))).
Proof.
  unfold stored_at. intros Hkey Hcfg Hwr. cbv zeta.
  unfold Stored.inject_key, try_except, Stored.read_lines, Stored.read_text,
    Stored.write_text, Stored.substitute, bind, get, put, eval, print, ret, raise.
  cbn [mem stdout fst snd].
  rewrite Hkey. cbn [mem stdout]. rewrite Hcfg.
  destruct (str_in target (universal_newlines raw)); cbn [mem stdout]; rewrite Hwr;
    cbn [mem stdout]; rewrite <- !app_assoc; reflexivity.
Qed.

Lemma stored_inject_key_read_failure key_path config_path w e :
  stored_at w key_path = Error e \/
  (exists rawkey, stored_at w key_path = Ok rawkey) /\
  stored_at w config_path = Error e ->
  Stored.inject_key key_path config_path w =
    (SysExit 1,
     Proc (stdout w ++ [banner key_path config_path; lit "Error: " ++ exn_str e])
          (mem w)).
Proof.
  unfold stored_at.
  unfold Stored.inject_key, try_except, Stored.read_lines, Stored.read_text,
    bind, get, eval, print, ret, raise, sys_exit. cbn [mem stdout fst snd].
  intros [Hkey | [[rawkey Hkey] Hcfg]]; rewrite Hkey; cbn [mem stdout].
  - rewrite <- !app_assoc. reflexivity.
  - rewrite Hcfg. cbn [mem stdout]. rewrite <- !app_assoc. reflexivity.
Qed.

Lemma stored_inject_key_write_failure key_path config_path w rawkey raw e :
  stored_at w key_path = Ok rawkey ->
  stored_at w config_path = Ok raw ->
  write_error (files (mem w) (resolve (mem w) config_path)) = Some e ->
  exists report,
    Stored.inject_key key_path config_path w =
      (SysExit 1,
       Proc (stdout w ++ [banner key_path config_path; report;
                          lit "Error: " ++ exn_str e])
            (mem w)).
Proof.
  unfold stored_at. intros Hkey Hcfg Hwr.
  unfold Stored.inject_key, try_except, Stored.read_lines, Stored.read_text,
    Stored.write_text, Stored.substitute, bind, get, put, eval, print, ret, raise,
    sys_exit.
  cbn [mem stdout fst snd].
  rewrite Hkey. cbn [mem stdout]. rewrite Hcfg.
  destruct (str_in target (universal_newlines raw)); cbn [mem stdout]; rewrite Hwr;
    cbn [mem stdout]; rewrite <- !app_assoc; eexists; reflexivity.
Qed.

Lemma stored_inject_key_cases key_path config_path w :
  (exists rawkey raw,
     stored_at w key_path = Ok rawkey /\
     stored_at w config_path = Ok raw /\
     write_error (files (mem w) (resolve (mem w) config_path)) = None) \/
  (exists e,
     stored_at w key_path = Error e \/
     (exists rawkey, stored_at w key_path = Ok rawkey) /\
     stored_at w config_path = Error e) \/
  (exists rawkey raw e,
     stored_at w key_path = Ok rawkey /\
     stored_at w config_path = Ok raw /\
     write_error (files (mem w) (resolve (mem w) config_path)) = Some e).
Proof.
  destruct (stored_at w key_path) as [rawkey|e] eqn:Hkey.
  - destruct (stored_at w config_path) as [raw|e] eqn:Hcfg.
    + destruct (write_error (files (mem w) (resolve (mem w) config_path)))
        as [e|] eqn:Hwr.
      * right. right. by exists rawkey, raw, e.
      * left. by exists rawkey, raw.
    + right. left. exists e. right. eauto.
  - right. left. exists e. by left.
Qed.

(** *** The stored configuration after a run *)

(** C8, as amended.  With the key file content ["LINE1\nLINE2\n"] and a
    configuration whose text, as read, holds the indented placeholder at
    exactly one offset [n], the text written is the text before the
    placeholder, then 16 spaces and [LINE1], a newline, 16 spaces and
    [LINE2], then the text behind the placeholder.  What is stored is
    that text with every newline written as the line separator; when
    the stored configuration has no carriage return and the line
    separator is the newline, what was stored before and behind the
    placeholder is stored again unchanged. *)
Theorem stored_inject_key_line1_line2 key_path config_path w raw n :
  stored_at w key_path = Ok (lit "LINE1" ++ [LF] ++ lit "LINE2" ++ [LF]) ->
  stored_at w config_path = Ok raw ->
  write_error (files (mem w) (resolve (mem w) config_path)) = None ->
  occurrences target (universal_newlines raw) = [n] ->
  let text := universal_newlines raw in
  let before := take n text in
  let behind := drop (n + length target) text in
  let inserted :=
    str_mul SPACE 16 ++ lit "LINE1" ++ [LF] ++ str_mul SPACE 16 ++ lit "LINE2" in
  let run := Stored.inject_key key_path config_path w in
  text = before ++ (str_mul SPACE 16 ++ PLACEHOLDER) ++ behind /\
  fst run = Return tt /\
  stored_at (snd run) config_path =
    Ok (write_newlines (linesep (mem w)) (before ++ inserted ++ behind)) /\
  (Forall (fun c => c <> CR) raw -> linesep (mem w) = [LF] ->
   raw = before ++ (str_mul SPACE 16 ++ PLACEHOLDER) ++ behind /\
   stored_at (snd run) config_path = Ok (before ++ inserted ++ behind)).
Proof.
  intros Hkey Hcfg Hwr Hocc text before behind inserted run.
  destruct (occurrences_once _ _ _ target_nonempty Hocc) as (Hsplit & Hfirst & Hrest).
  fold text in Hsplit, Hfirst, Hrest. fold before behind in Hsplit, Hfirst, Hrest.
  assert (Hstored : stored_at (snd run) config_path =
                    Ok (write_newlines (linesep (mem w)) (before ++ inserted ++ behind))).
  { subst run. rewrite (stored_inject_key_success _ _ _ _ _ Hkey Hcfg Hwr).
    unfold stored_at. cbn [snd mem files resolve]. rewrite decide_True by done.
    cbn [stored]. fold text.
    assert (Hin : str_in target text = true).
    { apply str_in_spec. exists before, behind. exact Hsplit. }
    rewrite Hin. do 2 f_equal.
    rewrite Hsplit at 1. rewrite Hsplit in Hfirst.
    rewrite (str_replace_first _ _ _ _ target_nonempty Hfirst).
    rewrite (str_replace_absent _ _ _ target_nonempty Hrest).
    reflexivity. }
  split; [exact Hsplit|]. split.
  { subst run. by rewrite (stored_inject_key_success _ _ _ _ _ Hkey Hcfg Hwr). }
  split; [exact Hstored|].
  intros Hcr Hlf. split.
  - rewrite <- (universal_newlines_id raw Hcr) at 1. exact Hsplit.
  - rewrite Hstored, Hlf. by rewrite write_newlines_lf.
Qed.

(** C9, as amended.  When the stored configuration contains neither the
    indented placeholder nor the bare token, the script run with the two
    paths returns, so that the process exits with status 0, having
    printed the success line, and the configuration file is written
    back with the text that was read: what is stored afterwards is what
    was stored before with ["\r\n"] and ["\r"] turned into the line
    separator.  No other file changes.  When the line separator is the
    newline, the configuration file is stored as it was exactly when it
    held no carriage return. *)
Theorem stored_inject_key_without_placeholder prog key_path config_path w rawkey raw :
  stored_at w key_path = Ok rawkey ->
  stored_at w config_path = Ok raw ->
  write_error (files (mem w) (resolve (mem w) config_path)) = None ->
  str_in target raw = false ->
  str_in PLACEHOLDER raw = false ->
  let run := Stored.main [prog; key_path; config_path] w in
  fst run = Return tt /\
  exit_status (fst run) = 0%Z /\
  lit "Successfully injected key." ∈ stdout (snd run) /\
  stored_at (snd run) config_path =
    Ok (write_newlines (linesep (mem w)) (universal_newlines raw)) /\
  (forall i, i <> resolve (mem w) config_path ->
     files (mem (snd run)) i = files (mem w) i) /\
  (linesep (mem w) = [LF] ->
   (stored_at (snd run) config_path = Ok raw <-> Forall (fun c => c <> CR) raw) /\
   (Forall (fun c => c <> CR) raw ->
    forall i, files (mem (snd run)) i = files (mem w) i)).
Proof.
  intros Hkey Hcfg Hwr Hno Hbare. cbv zeta. cbn [Stored.main].
  rewrite (stored_inject_key_success _ _ _ _ _ Hkey Hcfg Hwr).
  rewrite (str_in_universal_newlines _ _ target_plain), Hno.
  rewrite (str_replace_absent _ _ _ placeholder_nonempty)
    by (by rewrite (str_in_universal_newlines _ _ placeholder_plain)).
  unfold stored_at in *. cbn [fst snd mem stdout files resolve exit_status].
  split; [done|]. split; [done|]. split; [|split; [|split]].
  - apply elem_of_app. right. right. right. by left.
  - by rewrite decide_True.
  - intros i Hi. by rewrite decide_False.
  - intros Hlf. rewrite Hlf, write_newlines_lf, decide_True by done. cbn [stored].
    split.
    + rewrite <- universal_newlines_id_iff. split; [by intros [= ->] | by intros ->].
    + intros Hcr i. destruct (decide (i = resolve (mem w) config_path)) as [->|]; [|done].
      rewrite (universal_newlines_id raw Hcr).
      destruct (files (mem w) (resolve (mem w) config_path)) as [r o].
      simpl in Hcfg, Hwr. by subst.
Qed.

(** X3.  Whatever happens, [inject_key] changes no file other than the
    one that [config_path] names, and it changes neither the line
    separator nor what the paths name; so the key file is left as it is
    when [key_path] names another file than [config_path]. *)
Theorem stored_inject_key_changes_only_config_file key_path config_path w :
  let run := Stored.inject_key key_path config_path w in
  (forall i, i <> resolve (mem w) config_path ->
     files (mem (snd run)) i = files (mem w) i) /\
  resolve (mem (snd run)) = resolve (mem w) /\
  linesep (mem (snd run)) = linesep (mem w) /\
  (resolve (mem w) key_path <> resolve (mem w) config_path ->
   stored_at (snd run) key_path = stored_at w key_path).
Proof.
  cbv zeta. unfold stored_at at 1.
  destruct (stored_inject_key_cases key_path config_path w)
    as [(rawkey & raw & Hkey & Hcfg & Hwr)
       | [[e He] | (rawkey & raw & e & Hkey & Hcfg & Hwr)]].
  - rewrite (stored_inject_key_success _ _ _ _ _ Hkey Hcfg Hwr).
    cbn [snd mem files resolve linesep].
    split; [intros i Hi; by rewrite decide_False|]. split; [done|]. split; [done|].
    intros Hne. by rewrite decide_False.
  - by rewrite (stored_inject_key_read_failure _ _ _ _ He).
  - destruct (stored_inject_key_write_failure _ _ _ _ _ _ Hkey Hcfg Hwr) as [report ->].
    done.
Qed.

(** The theorems above at sample inputs. *)

Lemma stored_inject_key_line1_line2_witness :
  let run := Stored.inject_key Examples.key_pem Examples.config_yml
               (Examples.posix Examples.two_line_key Examples.one_placeholder) in
  fst run = Return tt /\
  stored_at (snd run) Examples.config_yml =
    Ok (lit "a:" ++ [LF] ++
        (str_mul SPACE 16 ++ lit "LINE1" ++ [LF] ++ str_mul SPACE 16 ++ lit "LINE2") ++
        [LF] ++ lit "b: 1" ++ [LF]).
Proof.
  pose proof (stored_inject_key_line1_line2 Examples.key_pem Examples.config_yml
                (Examples.posix Examples.two_line_key Examples.one_placeholder)
                Examples.one_placeholder 3 eq_refl eq_refl eq_refl eq_refl)
    as (_ & Hret & _ & Hposix).
  split; [exact Hret|].
  refine (proj2 (Hposix _ eq_refl)).
  apply (bool_decide_unpack _). vm_compute. exact I.
Defined.

(** C8, as stated, fails: with ["\r\n"] line endings around the
    placeholder, the characters around the inserted lines are not what
    was stored; the carriage returns are gone. *)
Lemma stored_inject_key_line1_line2_counterexample :
  let raw := Examples.crlf_one_placeholder in
  let inserted :=
    str_mul SPACE 16 ++ lit "LINE1" ++ [LF] ++ str_mul SPACE 16 ++ lit "LINE2" in
  let run := Stored.inject_key Examples.key_pem Examples.config_yml
               (Examples.posix Examples.two_line_key raw) in
  occurrences target raw = [4] /\
  raw = lit "a:" ++ [CR; LF] ++ target ++ [CR; LF] ++ lit "b: 1" ++ [CR; LF] /\
  fst run = Return tt /\
  stored_at (snd run) Examples.config_yml =
    Ok (lit "a:" ++ [LF] ++ inserted ++ [LF] ++ lit "b: 1" ++ [LF]) /\
  stored_at (snd run) Examples.config_yml <>
    Ok (lit "a:" ++ [CR; LF] ++ inserted ++ [CR; LF] ++ lit "b: 1" ++ [CR; LF]).
Proof.
  cbv zeta. split; [vm_compute; reflexivity|].
  split; [vm_compute; reflexivity|].
  split; [vm_compute; reflexivity|].
  split; [vm_compute; reflexivity|].
  vm_compute. discriminate.
Qed.

Lemma stored_inject_key_without_placeholder_witness :
  let w := Examples.posix Examples.one_line_key Examples.no_placeholder in
  let run := Stored.main [lit "inject_key.py"; Examples.key_pem; Examples.config_yml] w in
  fst run = Return tt /\
  exit_status (fst run) = 0%Z /\
  stored_at (snd run) Examples.config_yml = Ok Examples.no_placeholder /\
  forall i, files (mem (snd run)) i = files (mem w) i.
Proof.
  pose proof (stored_inject_key_without_placeholder
                (lit "inject_key.py") Examples.key_pem Examples.config_yml
                (Examples.posix Examples.one_line_key Examples.no_placeholder)
                Examples.one_line_key Examples.no_placeholder
                eq_refl eq_refl eq_refl eq_refl eq_refl)
    as (Hret & Hexit & _ & _ & _ & Hposix).
  assert (Hcr : Forall (fun c => c <> CR) Examples.no_placeholder).
  { apply (bool_decide_unpack _). vm_compute. exact I. }
  destruct (Hposix eq_refl) as [Hiff Hall].
  split; [exact Hret|]. split; [exact Hexit|]. split.
  - exact (proj2 Hiff Hcr).
  - exact (Hall Hcr).
Defined.

(** C9, as stated, fails: a configuration without placeholder stored
    with ["\r\n"] line endings is written back with ["\n"] line
    endings, two characters shorter, and the script exits with 0. *)
Lemma stored_inject_key_without_placeholder_counterexample :
  let raw := Examples.crlf_no_placeholder in
  let w := Examples.posix Examples.one_line_key raw in
  let run := Stored.main [lit "inject_key.py"; Examples.key_pem; Examples.config_yml] w in
  str_in target raw = false /\
  str_in PLACEHOLDER raw = false /\
  stored_at w Examples.config_yml =
    Ok (lit "a: 1" ++ [CR; LF] ++ lit "b: 2" ++ [CR; LF]) /\
  exit_status (fst run) = 0%Z /\
  stored_at (snd run) Examples.config_yml =
    Ok (lit "a: 1" ++ [LF] ++ lit "b: 2" ++ [LF]) /\
  stored_at (snd run) Examples.config_yml <> stored_at w Examples.config_yml.
Proof.
  cbv zeta. split; [vm_compute; reflexivity|].
  split; [vm_compute; reflexivity|].
  split; [vm_compute; reflexivity|].
  split; [vm_compute; reflexivity|].
  split; [vm_compute; reflexivity|].
  vm_compute. discriminate.
Qed.

(** Two paths that name one file: run with [./config.yml], the script
    rewrites the file that [config.yml] names. *)
Lemma stored_inject_key_linked_paths :
  let w := Examples.linked Examples.two_line_key Examples.one_placeholder in
  let run := Stored.inject_key Examples.key_pem (lit "./config.yml") w in
  lit "./config.yml" <> Examples.config_yml /\
  resolve (mem w) (lit "./config.yml") = resolve (mem w) Examples.config_yml /\
  stored_at (snd run) Examples.config_yml <> stored_at w Examples.config_yml.
Proof.
  cbv zeta. split; [vm_compute; discriminate|]. split; [vm_compute; reflexivity|].
  vm_compute. discriminate.
Qed.

Lemma stored_inject_key_changes_only_config_file_witness :
  let w := Examples.posix Examples.one_line_key Examples.one_placeholder in
  let run := Stored.inject_key Examples.key_pem Examples.config_yml w in
  files (mem (snd run)) 1%N = files (mem w) 1%N /\
  stored_at (snd run) Examples.key_pem = Ok Examples.one_line_key.
Proof.
  pose proof (stored_inject_key_changes_only_config_file
                Examples.key_pem Examples.config_yml
                (Examples.posix Examples.one_line_key Examples.one_placeholder))
    as (Hfiles & _ & _ & Hkey).
  split.
  - apply Hfiles. vm_compute. discriminate.
  - apply Hkey. vm_compute. discriminate.
Defined.

End StoredFacts.
